(** * Profit-mix optimizer: the blend search and the diversified shortlist

    A shallow embedding of the optimisation core of [app.py]
    ([_blend], [_deviation], [_svc], [_score] and [compute]) together with
    the properties its specification states about it.

    Conventions of the embedding.
    - A Python [float] is an exact rational number ([Qc], canonical
      rationals, so that Python's [==] on numbers is Leibniz equality).
      Rounding error, infinities and NaN are outside the model, except in
      [Binary64], which evaluates the score on IEEE binary64 numbers.
    - A Python [dict] with string keys is a [gmap string _]; a subscript
      [d[k]] on a missing key raises [KeyError], which is kept: functions
      that subscript a dict live in the exception monad [exc].
    - A Python [set] of strings is a [gset string].
    - [for] loops are folds over the iterated list that thread the
      variables the loop mutates; [continue] returns the state unchanged and
      [break] stops the recursion.
    - String literals hold the UTF-8 bytes of the source's text. *)

From Stdlib Require Import PrimFloat.
From Stdlib Require Import QArith Qcanon ZArith Lia.
From Stdlib Require Qcabs.
From stdpp Require Import gmap strings list fin_maps pretty numbers sorting.

Open Scope Qc_scope.

Set Warnings "-clear-no-such-hyp".

(** ** Numbers *)

Module Num.

(** An [int] used where a float is expected. *)
Definition of_Z (z : Z) : Qc := Q2Qc (inject_Z z).

(** Literals of the source. *)
Definition hundred : Qc := of_Z 100.          (* 100.0 *)
Definition step : Qc := Q2Qc (5 # 100).       (* 0.05  *)
Definition tol : Qc := Q2Qc (1 # 1000000000). (* 1e-9  *)

(** [x < y] and [x > y] as the tests of an [if]. *)
Definition ltb (x y : Qc) : bool := bool_decide (x < y).

(** [abs(x)]. *)
Definition abs (x : Qc) : Qc := Qcabs.Qcabs x.

(** [min(a, b)] and [max(a, b)] of the builtins: the first argument is
    kept unless the second is strictly smaller (resp. larger). *)
Definition min (a b : Qc) : Qc := if ltb b a then b else a.
Definition max (a b : Qc) : Qc := if ltb a b then b else a.

(** The greatest integer below a rational (used by the rounding). *)
Definition floor (x : Qc) : Z := (Qnum x / Zpos (Qden x))%Z.

(** [int(x)]: truncation towards zero. *)
Definition to_int (x : Qc) : Z := (Qnum x ÷ Zpos (Qden x))%Z.

(** Rounding to the nearest integer, ties to even, as [round] does. *)
Definition round_half_even (x : Qc) : Z :=
  let fl := floor x in
  let r := x - of_Z fl in
  let half := Q2Qc (1 # 2) in
  if ltb r half then fl
  else if ltb half r then (fl + 1)%Z
  else if Z.even fl then fl else (fl + 1)%Z.

(** [round(x, ndigits)]. *)
Definition round (x : Qc) (ndigits : nat) : Qc :=
  let p := of_Z (10 ^ Z.of_nat ndigits) in
  of_Z (round_half_even (x * p)) / p.

(** [sum(xs)]: starts from 0 and adds from the left. *)
Definition sum (xs : list Qc) : Qc := fold_left Qcplus xs 0.

End Num.

(** ** Exceptions *)

Inductive error : Type :=
| KeyError (key : string).

Inductive exc (A : Type) : Type :=
| Ret (a : A)
| Raise (e : error).
Arguments Ret {A} a.
Arguments Raise {A} e.

#[global] Instance exc_ret : MRet exc := @Ret.
#[global] Instance exc_bind : MBind exc := λ A B f m,
  match m with
  | Ret a => f a
  | Raise e => Raise e
  end.

(** [d[k]] on a dict. *)
Definition getitem {V} (d : gmap string V) (k : string) : exc V :=
  match d !! k with
  | Some v => Ret v
  | None => Raise (KeyError k)
  end.

(** [d.get(k, dflt)]. *)
Definition dict_get {V} (d : gmap string V) (k : string) (dflt : V) : V :=
  default dflt (d !! k).

(** A [for] loop whose body may raise: [body x s] is one iteration on the
    element [x] with the loop variables [s]. *)
Fixpoint for_each {A S} (xs : list A) (body : A → S → exc S) (s : S) : exc S :=
  match xs with
  | [] => Ret s
  | x :: xs' => s' ← body x s; for_each xs' body s'
  end.

(** ** Data model *)

Record Fund : Type := mkFund {
  sheet : string;
  name : string;
  provider : string;
  equity : Qc;
  abroad : Qc;
  fx : Qc;
  illiquid : Qc;
  sharpe : Qc;
}.

#[global] Instance Fund_eq_dec : EqDecision Fund.
Proof. solve_decision. Defined.

(** The dicts appended to [candidates]. *)
Record Candidate : Type := mkCandidate {
  funds : list Fund;
  weights : list Qc;
  vals : gmap string Qc;
  deviation : Qc;
  svc : Qc;
  score : Qc;
}.

#[global] Instance Candidate_eq_dec : EqDecision Candidate.
Proof. solve_decision. Defined.

(** ** Blend, deviation, service and score *)

Definition _blend (fs : list Fund) (ws : list Qc) : gmap string Qc :=
  <["equity"   := Num.sum ((λ wf, wf.1 * equity wf.2)   <$> zip ws fs)]>
 (<["abroad"   := Num.sum ((λ wf, wf.1 * abroad wf.2)   <$> zip ws fs)]>
 (<["fx"       := Num.sum ((λ wf, wf.1 * fx wf.2)       <$> zip ws fs)]>
 (<["illiquid" := Num.sum ((λ wf, wf.1 * illiquid wf.2) <$> zip ws fs)]>
 (<["sharpe"   := Num.sum ((λ wf, wf.1 * sharpe wf.2)   <$> zip ws fs)]> ∅)))).

(** One term [tw[k] * abs(v[k] - t[k])], subscripts in evaluation order. *)
Definition dev_term (v t tw : gmap string Qc) (k : string) : exc Qc :=
  w ← getitem tw k;
  x ← getitem v k;
  y ← getitem t k;
  mret (w * Num.abs (x - y)).

Definition _deviation (v t tw : gmap string Qc) : exc Qc :=
  d1 ← dev_term v t tw "equity";
  d2 ← dev_term v t tw "abroad";
  d3 ← dev_term v t tw "fx";
  d4 ← dev_term v t tw "illiquid";
  mret (d1 + d2 + d3 + d4).

Definition _svc (provs : list string) (ws : list Qc)
    (smap : gmap string Qc) (dflt : Qc) : Qc :=
  Num.sum ((λ wp, wp.1 * dict_get smap wp.2 dflt) <$> zip ws provs).

(** Lower = better. *)
Definition _score (dev sharpe svc sharpe_w service_w : Qc) : Qc :=
  dev - sharpe_w * sharpe - service_w * (svc / Num.hundred).

(** [_score] on IEEE binary64 numbers, rounded to nearest even after every
    operation, as Python evaluates the same expression on floats. *)
Module Binary64.

Definition _score (dev sharpe svc sharpe_w service_w : PrimFloat.float)
    : PrimFloat.float :=
  PrimFloat.sub
    (PrimFloat.sub dev (PrimFloat.mul sharpe_w sharpe))
    (PrimFloat.mul service_w (PrimFloat.div svc 100%float)).

End Binary64.

(** ** Enumeration helpers *)

(** [itertools.combinations(xs, 2)], in the order it yields the pairs. *)
Fixpoint combinations2 {A} (xs : list A) : list (A * A) :=
  match xs with
  | [] => []
  | x :: xs' => (pair x <$> xs') ++ combinations2 xs'
  end.

(** [itertools.combinations(xs, 3)]. *)
Fixpoint combinations3 {A} (xs : list A) : list (A * A * A) :=
  match xs with
  | [] => []
  | x :: xs' => ((λ yz, (x, yz.1, yz.2)) <$> combinations2 xs') ++ combinations3 xs'
  end.

(** [range(n)] as integers. *)
Definition range (n : Z) : list Z := seqZ 0 n.

(** [grid = [i / 100.0 for i in range(0, 101)]] *)
Definition grid : list Qc := (λ i, Num.of_Z i / Num.hundred) <$> range 101.

(** [grid1 = [round(i * step, 3) for i in range(int(1 / step) + 1)]] *)
Definition grid1 : list Qc :=
  (λ i, Num.round (Num.of_Z i * Num.step) 3)
    <$> range (Num.to_int (1 / Num.step) + 1).

(** [candidates.sort(key=lambda c: c['score'])]: a stable sort that compares
    keys with [<]. *)
Fixpoint insert_by_score (c : Candidate) (l : list Candidate) : list Candidate :=
  match l with
  | [] => [c]
  | d :: l' =>
      if Num.ltb (score d) (score c) then d :: insert_by_score c l'
      else c :: d :: l'
  end.

Fixpoint sort_by_score (l : list Candidate) : list Candidate :=
  match l with
  | [] => []
  | c :: l' => insert_by_score c (sort_by_score l')
  end.

(** ** The diversified selector *)

(** The three variables the selection loops mutate. *)
Record selection : Type := mkSelection {
  chosen : list Candidate;
  used_prov : gset string;
  used_names : gset string;
}.

Definition prov_set (c : Candidate) : gset string :=
  list_to_set (provider <$> funds c).
Definition names_set (c : Candidate) : gset string :=
  list_to_set (name <$> funds c).

(** Truth value of a set: non-empty. *)
Definition truthy (s : gset string) : bool := bool_decide (s ≠ ∅).

(** First loop: unique fund names and, unless [same_prov_only], unique
    providers across the alternatives. *)
Fixpoint strict_pass (same_prov_only : bool) (cands : list Candidate)
    (st : selection) : selection :=
  match cands with
  | [] => st
  | c :: rest =>
      if truthy (used_names st ∩ names_set c) then
        strict_pass same_prov_only rest st
      else if negb same_prov_only && truthy (used_prov st ∩ prov_set c) then
        strict_pass same_prov_only rest st
      else
        let st' := {| chosen := chosen st ++ [c];
                      used_prov := used_prov st ∪ prov_set c;
                      used_names := used_names st ∪ names_set c |} in
        if (length (chosen st') =? 3)%nat then st'
        else strict_pass same_prov_only rest st'
  end.

(** Second loop: provider uniqueness is dropped. *)
Fixpoint relaxed_pass (cands : list Candidate) (st : selection) : selection :=
  match cands with
  | [] => st
  | c :: rest =>
      if bool_decide (c ∈ chosen st) then relaxed_pass rest st
      else if truthy (used_names st ∩ names_set c) then relaxed_pass rest st
      else
        let st' := {| chosen := chosen st ++ [c];
                      used_prov := used_prov st;
                      used_names := used_names st ∪ names_set c |} in
        if (length (chosen st') =? 3)%nat then st'
        else relaxed_pass rest st'
  end.

(** The selection after both loops, before the last fallback. *)
Definition run_passes (same_prov_only : bool) (cands : list Candidate) : selection :=
  let st := strict_pass same_prov_only cands (mkSelection [] ∅ ∅) in
  if (length (chosen st) <? 3)%nat then relaxed_pass cands st else st.

(** Everything [compute] does after the sort. *)
Definition select (same_prov_only : bool) (cands : list Candidate) : list Candidate :=
  let st := run_passes same_prov_only cands in
  match chosen st with
  | [] => take 3 cands
  | _ => chosen st
  end.

(** ** The candidate search and [compute] *)

Definition msg_too_few (n : Z) (len : nat) : string :=
  "נדרשות לפחות " +:+ pretty n +:+ " קרנות; יש רק " +:+ pretty len +:+ ".".

Definition msg_no_combination : string :=
  "לא נמצאו שילובים תקינים. נסה להרחיב הגדרות או להפחית מגבלות.".

Section Compute.

Variables (target target_weights : gmap string Qc).
Variables (sharpe_w service_w : Qc).
Variables (svc_map : gmap string Qc) (dflt_svc : Qc).
Variable same_prov_only : bool.

(** The block [v = ...; dev = ...; svc = ...; sc = ...] and the dict built
    from it, for the funds [fs] at the weights [ws]; [sv] is the service
    value, which the branches compute differently. *)
Definition evaluate (fs : list Fund) (ws : list Qc) (sv : Qc) : exc Candidate :=
  let v := _blend fs ws in
  dev ← _deviation v target target_weights;
  sh ← getitem v "sharpe";
  let sc := _score dev sh sv sharpe_w service_w in
  mret (mkCandidate fs ws v dev sv sc).

(** [if best is None or sc < best['score']: best = dict(...)] *)
Definition keep_best (best : option Candidate) (c : Candidate) : option Candidate :=
  match best with
  | None => Some c
  | Some b => if Num.ltb (score c) (score b) then Some c else best
  end.

(** [if best: candidates.append(best)] *)
Definition append_best (best : option Candidate) (candidates : list Candidate) :=
  match best with
  | Some b => candidates ++ [b]
  | None => candidates
  end.

(** n == 1 *)
Definition single_step (f : Fund) (candidates : list Candidate) : exc (list Candidate) :=
  c ← evaluate [f] [1] (dict_get svc_map (provider f) dflt_svc);
  mret (candidates ++ [c]).

Definition search1 (fs : list Fund) : exc (list Candidate) :=
  for_each fs single_step [].

(** n == 2 *)
Definition pair_weight_step (f1 f2 : Fund) (w1 : Qc) (best : option Candidate)
    : exc (option Candidate) :=
  let w2 := 1 - w1 in
  c ← evaluate [f1; f2] [w1; w2]
        (_svc [provider f1; provider f2] [w1; w2] svc_map dflt_svc);
  mret (keep_best best c).

Definition best_pair (f1 f2 : Fund) : exc (option Candidate) :=
  for_each grid (pair_weight_step f1 f2) None.

Definition pair_step (p : Fund * Fund) (candidates : list Candidate)
    : exc (list Candidate) :=
  let '(f1, f2) := p in
  if same_prov_only && bool_decide (provider f1 ≠ provider f2) then
    mret candidates
  else
    best ← best_pair f1 f2;
    mret (append_best best candidates).

Definition search2 (fs : list Fund) : exc (list Candidate) :=
  for_each (combinations2 fs) pair_step [].

(** n == 3 (the [else] branch) *)
Definition triple_weight_step (f1 f2 f3 : Fund) (w1 w2 : Qc)
    (best : option Candidate) : exc (option Candidate) :=
  let w3 := Num.round (1 - w1 - w2) 3 in
  if Num.ltb w3 (- Num.tol) || Num.ltb (1 + Num.tol) w3 then
    mret best
  else
    let w3 := Num.max 0 (Num.min 1 w3) in
    c ← evaluate [f1; f2; f3] [w1; w2; w3]
          (_svc [provider f1; provider f2; provider f3] [w1; w2; w3]
                svc_map dflt_svc);
    mret (keep_best best c).

Definition best_triple (f1 f2 f3 : Fund) : exc (option Candidate) :=
  for_each grid1
    (λ w1 best, for_each grid1 (triple_weight_step f1 f2 f3 w1) best) None.

Definition triple_step (t : Fund * Fund * Fund) (candidates : list Candidate)
    : exc (list Candidate) :=
  let '(f1, f2, f3) := t in
  if same_prov_only
     && negb (bool_decide (provider f1 = provider f2)
              && bool_decide (provider f2 = provider f3)) then
    mret candidates
  else
    best ← best_triple f1 f2 f3;
    mret (append_best best candidates).

Definition search3 (fs : list Fund) : exc (list Candidate) :=
  for_each (combinations3 fs) triple_step [].

(** The candidate pool, before it is sorted. *)
Definition search (fs : list Fund) (n : Z) : exc (list Candidate) :=
  if (n =? 1)%Z then search1 fs
  else if (n =? 2)%Z then search2 fs
  else search3 fs.

Definition compute (fs : list Fund) (n : Z) : exc (list Candidate * string) :=
  if (Z.of_nat (length fs) <? n)%Z then
    mret ([], msg_too_few n (length fs))
  else
    candidates ← search fs n;
    match candidates with
    | [] => mret ([], msg_no_combination)
    | _ => mret (select same_prov_only (sort_by_score candidates), "")
    end.

End Compute.

(** ** Definitions used to state the properties *)

(** The keys [_deviation] subscripts. *)
Definition metric_keys : list string := ["equity"; "abroad"; "fx"; "illiquid"].

(** [d] has a value at each of the four metric keys. *)
Definition has_metrics (d : gmap string Qc) : Prop :=
  ∀ k, k ∈ metric_keys → is_Some (d !! k).

(** The deviation as the specification writes it: the sum, over a list of
    keys, of [weight[k] * |profile[k] - target[k]|]. *)
Definition weighted_abs_sum (weight profile target : string → Qc)
    (keys : list string) : Qc :=
  Num.sum ((λ k, weight k * Num.abs (profile k - target k)) <$> keys).

(** The fund names of a list of candidates. *)
Fixpoint names_of (l : list Candidate) : gset string :=
  match l with
  | [] => ∅
  | c :: l' => names_set c ∪ names_of l'
  end.

(** No fund name occurs in two different candidates of the list. *)
Fixpoint names_apart (l : list Candidate) : Prop :=
  match l with
  | [] => True
  | c :: l' => names_set c ## names_of l' ∧ names_apart l'
  end.

(** The loop invariant: [used_names] is the set of names of [chosen], and
    the candidates of [chosen] have pairwise disjoint names. *)
Definition sel_ok (st : selection) : Prop :=
  used_names st = names_of (chosen st) ∧ names_apart (chosen st).


(** A pair of funds the [same_prov_only] filter lets through. *)
Definition eligible_pair (same_prov_only : bool) (p : Fund * Fund) : bool :=
  negb (same_prov_only && bool_decide (provider p.1 ≠ provider p.2)).

(** A triple of funds the [same_prov_only] filter lets through. *)
Definition eligible_triple (same_prov_only : bool) (t : Fund * Fund * Fund) : bool :=
  negb (same_prov_only
        && negb (bool_decide (provider t.1.1 = provider t.1.2)
                 && bool_decide (provider t.1.2 = provider t.2))).

(** One iteration of a loop that keeps the best candidate, where [ev w]
    is the candidate evaluated at the loop element [w]. *)
Definition min_step {W} (ev : W → exc Candidate) (w : W)
    (best : option Candidate) : exc (option Candidate) :=
  c ← ev w; mret (keep_best best c).

(** [c] has the least score among the candidates [ev w], [w] in [ws], and
    is one of them. *)
Definition least_of {W} (ev : W → exc Candidate) (ws : list W)
    (c : Candidate) : Prop :=
  (∃ w, w ∈ ws ∧ ev w = Ret c) ∧
  (∀ w, w ∈ ws → ∃ c', ev w = Ret c' ∧ score c ≤ score c').

(** The candidate of the pair [p] at the split [w1, 1 - w1]. *)
Definition pair_eval (target target_weights : gmap string Qc)
    (sharpe_w service_w : Qc) (svc_map : gmap string Qc) (dflt_svc : Qc)
    (p : Fund * Fund) (w1 : Qc) : exc Candidate :=
  evaluate target target_weights sharpe_w service_w [p.1; p.2] [w1; 1 - w1]
    (_svc [provider p.1; provider p.2] [w1; 1 - w1] svc_map dflt_svc).

(** [w3 = max(0.0, min(1.0, w3))] *)
Definition clamp (w3 : Qc) : Qc := Num.max 0 (Num.min 1 w3).

(** [w3 < -1e-9 or w3 > 1.0 + 1e-9]: the combination is skipped. *)
Definition skipped (w3 : Qc) : bool :=
  Num.ltb w3 (- Num.tol) || Num.ltb (1 + Num.tol) w3.

(** The candidate of the triple [t] at the weights [w1, w2, w3]. *)
Definition triple_eval (target target_weights : gmap string Qc)
    (sharpe_w service_w : Qc) (svc_map : gmap string Qc) (dflt_svc : Qc)
    (t : Fund * Fund * Fund) (w1 w2 w3 : Qc) : exc Candidate :=
  evaluate target target_weights sharpe_w service_w
    [t.1.1; t.1.2; t.2] [w1; w2; w3]
    (_svc [provider t.1.1; provider t.1.2; provider t.2] [w1; w2; w3]
          svc_map dflt_svc).

(** ** A small catalog

    The two funds and the target of the specification's scenario A, and a
    third fund. *)

Module Scenario.

Definition fundX : Fund :=
  mkFund "Sheet1" "FundX" "A" (Num.of_Z 50) (Num.of_Z 50) (Num.of_Z 20)
         (Num.of_Z 5) 1.

Definition fundY : Fund :=
  mkFund "Sheet1" "FundY" "B" (Num.of_Z 30) (Num.of_Z 70) (Num.of_Z 40)
         (Num.of_Z 10) (Q2Qc (8 # 10)).

Definition fundZ : Fund :=
  mkFund "Sheet2" "FundZ" "C" (Num.of_Z 60) (Num.of_Z 40) (Num.of_Z 10)
         0 (Q2Qc (1 # 2)).

Definition catalog : list Fund := [fundX; fundY; fundZ].

Definition target : gmap string Qc :=
  <["equity" := Num.of_Z 40]> (<["abroad" := Num.of_Z 60]>
 (<["fx" := Num.of_Z 30]> (<["illiquid" := Num.of_Z 7]> ∅))).

Definition equal_weights : gmap string Qc :=
  <["equity" := 1]> (<["abroad" := 1]> (<["fx" := 1]> (<["illiquid" := 1]> ∅))).

(** [compute] on the catalog with no sharpe and no service preference. *)
Definition run (fs : list Fund) (n : Z) : exc (list Candidate * string) :=
  compute target equal_weights 0 0 ∅ (Num.of_Z 70) false fs n.

(** The candidate pool of the same call, as found and once sorted. *)
Definition pool (fs : list Fund) (n : Z) : list Candidate :=
  match search target equal_weights 0 0 ∅ (Num.of_Z 70) false fs n with
  | Ret cs => cs
  | Raise _ => []
  end.

Definition sorted_pool (fs : list Fund) (n : Z) : list Candidate :=
  sort_by_score (pool fs n).

(** What [compute] returned, or nothing when it raised. *)
Definition returned (r : exc (list Candidate * string)) : list Candidate :=
  match r with
  | Ret (cs, _) => cs
  | Raise _ => []
  end.

End Scenario.

(** ** Definitions for the properties of the rest of the engine *)


(** [compute] evaluates at least one candidate: the branch selected by [n]
    has a subset of funds that passes the same-provider filter. *)
Definition enumerates (same_prov_only : bool) (fs : list Fund) (n : Z) : Prop :=
  if (n =? 1)%Z then fs ≠ []
  else if (n =? 2)%Z then
    ∃ p, p ∈ combinations2 fs ∧ eligible_pair same_prov_only p = true
  else
    ∃ t, t ∈ combinations3 fs ∧ eligible_triple same_prov_only t = true.

(** The number of funds of a candidate built by the branch [n] selects. *)
Definition blend_size (n : Z) : nat :=
  if (n =? 1)%Z then 1 else if (n =? 2)%Z then 2 else 3.

(** The pairs [(w1, w2)] of the two nested loops of the three-fund search,
    in the order the loops visit them. *)
Definition grid_pairs : list (Qc * Qc) :=
  w1 ← grid1; w2 ← grid1; [(w1, w2)].

(** The third weight of the three-fund search, before the test. *)
Definition third_weight (w : Qc * Qc) : Qc := Num.round (1 - w.1 - w.2) 3.

(** The pairs the three-fund search does not skip. *)
Definition simplex : list (Qc * Qc) :=
  filter (λ w, skipped (third_weight w) = false) grid_pairs.

(** The candidate of the triple [t] at a pair of the simplex. *)
Definition simplex_eval (target target_weights : gmap string Qc)
    (sharpe_w service_w : Qc) (svc_map : gmap string Qc) (dflt_svc : Qc)
    (t : Fund * Fund * Fund) (w : Qc * Qc) : exc Candidate :=
  triple_eval target target_weights sharpe_w service_w svc_map dflt_svc t
    w.1 w.2 (clamp (third_weight w)).

(** Where a candidate of the pool comes from: the subset of the catalog and
    the weights it was evaluated at. *)
Definition origin (target target_weights : gmap string Qc)
    (sharpe_w service_w : Qc) (svc_map : gmap string Qc) (dflt_svc : Qc)
    (same_prov_only : bool) (fs : list Fund) (n : Z) (c : Candidate) : Prop :=
  if (n =? 1)%Z then
    ∃ f, f ∈ fs ∧
      evaluate target target_weights sharpe_w service_w [f] [1]
        (dict_get svc_map (provider f) dflt_svc) = Ret c
  else if (n =? 2)%Z then
    ∃ p w, p ∈ combinations2 fs ∧ eligible_pair same_prov_only p = true ∧
      w ∈ grid ∧
      pair_eval target target_weights sharpe_w service_w svc_map dflt_svc p w
        = Ret c
  else
    ∃ t w, t ∈ combinations3 fs ∧ eligible_triple same_prov_only t = true ∧
      w ∈ simplex ∧
      simplex_eval target target_weights sharpe_w service_w svc_map dflt_svc
        t w = Ret c.

(** What every returned candidate satisfies: its funds are distinct entries
    of the catalog, in catalog order; funds and weights have the size of
    the blend; every weight is in [0, 1]; the stored profile, deviation,
    service score and score are the ones of these funds and weights. *)
Definition well_formed (target target_weights : gmap string Qc)
    (sharpe_w service_w : Qc) (svc_map : gmap string Qc) (dflt_svc : Qc)
    (fs : list Fund) (size : nat) (c : Candidate) : Prop :=
  funds c `sublist_of` fs ∧
  length (funds c) = size ∧ length (weights c) = size ∧
  Forall (λ w, 0 ≤ w ∧ w ≤ 1) (weights c) ∧
  vals c = _blend (funds c) (weights c) ∧
  _deviation (vals c) target target_weights = Ret (deviation c) ∧
  svc c = _svc (provider <$> funds c) (weights c) svc_map dflt_svc ∧
  ∃ sh, vals c !! "sharpe" = Some sh ∧
        score c = _score (deviation c) sh (svc c) sharpe_w service_w.

(** The providers of a list of candidates. *)
Fixpoint provs_of (l : list Candidate) : gset string :=
  match l with
  | [] => ∅
  | c :: l' => prov_set c ∪ provs_of l'
  end.

(** No provider occurs in two different candidates of the list. *)
Fixpoint provs_apart (l : list Candidate) : Prop :=
  match l with
  | [] => True
  | c :: l' => prov_set c ## provs_of l' ∧ provs_apart l'
  end.

(** [BADGES] and [CARD_CLS], the labels the results page indexes with the
    rank of an alternative. *)
Definition BADGES : list string :=
  ["🥇 מומלץ ראשי"; "🥈 חלופה שנייה"; "🥉 חלופה שלישית"].

Definition CARD_CLS : list string := ["best"; "second"; "third"].

(** A catalog in which two funds have the same provider. *)
Module Shared.

Definition fundW : Fund :=
  mkFund "Sheet2" "FundW" "A" (Num.of_Z 20) (Num.of_Z 80) (Num.of_Z 50)
         (Num.of_Z 12) (Q2Qc (3 # 2)).

Definition catalog : list Fund := [Scenario.fundX; Scenario.fundY; fundW].

(** [compute] with [same_prov_only] set. *)
Definition run (n : Z) : exc (list Candidate * string) :=
  compute Scenario.target Scenario.equal_weights 0 0 ∅ (Num.of_Z 70) true
          catalog n.

End Shared.

(** [b] is the candidate of the first element of [ws] that reaches the
    least score: every element before it scores strictly more. *)
Definition first_least {W} (ev : W → exc Candidate) (ws : list W)
    (b : Candidate) : Prop :=
  ∃ i w, ws !! i = Some w ∧ ev w = Ret b ∧
    ∀ j w' c', (j < i)%nat → ws !! j = Some w' → ev w' = Ret c' →
               score b < score c'.

(** The candidates the first selection loop picks from [cands]. *)
Definition first_picks (same_prov_only : bool) (cands : list Candidate)
    : list Candidate :=
  chosen (strict_pass same_prov_only cands (mkSelection [] ∅ ∅)).

(** * Properties *)

(** ** The exception monad and the loops *)

Lemma bind_Ret {A B} (m : exc A) (f : A → exc B) (b : B) :
  m ≫= f = Ret b ↔ ∃ a, m = Ret a ∧ f a = Ret b.
Proof.
  destruct m as [a | e]; simpl.
  - split; [intros H; exists a; done | intros (a' & [= <-] & H); done].
  - split; [intros [=] | intros (a' & [=] & _)].
Qed.

Lemma for_each_app {A S} (xs ys : list A) (body : A → S → exc S) (s : S) :
  for_each (xs ++ ys) body s = for_each xs body s ≫= for_each ys body.
Proof.
  revert s. induction xs as [| x xs IH]; intros s; simpl; [done |].
  destruct (body x s) as [s' | e]; simpl; [apply IH | done].
Qed.

Lemma for_each_cons {A S} (x : A) (xs : list A) (body : A → S → exc S) (s : S) :
  for_each (x :: xs) body s = body x s ≫= for_each xs body.
Proof. reflexivity. Qed.

(** A loop whose every iteration returns, returns. *)
Lemma for_each_total {A S} (xs : list A) (body : A → S → exc S) (s : S) :
  (∀ x s0, x ∈ xs → ∃ s1, body x s0 = Ret s1) →
  ∃ s', for_each xs body s = Ret s'.
Proof.
  revert s. induction xs as [| x xs IH]; intros s Hbody; simpl; [eauto |].
  destruct (Hbody x s) as [s1 ->]; [left |]. simpl.
  apply IH. intros y s0 Hy. apply Hbody. by right.
Qed.

(** ** Arithmetic on [Qc] *)

Lemma Qc_not_lt_le (x y : Qc) : ¬ x < y → y ≤ x.
Proof. apply Qcnot_lt_le. Qed.

Lemma ltb_true (x y : Qc) : Num.ltb x y = true ↔ x < y.
Proof. unfold Num.ltb. apply bool_decide_eq_true. Qed.

Lemma ltb_false (x y : Qc) : Num.ltb x y = false ↔ y ≤ x.
Proof.
  unfold Num.ltb. rewrite bool_decide_eq_false. split.
  - apply Qcnot_lt_le.
  - apply Qcle_not_lt.
Qed.

Lemma sum_singleton (x : Qc) : Num.sum [x] = x.
Proof. unfold Num.sum. simpl. ring. Qed.

(** ** Dicts with the keys the engine subscripts *)

Lemma getitem_Some {V} (d : gmap string V) k v :
  d !! k = Some v → getitem d k = Ret v.
Proof. unfold getitem. by intros ->. Qed.

Lemma blend_lookup fs ws :
  let dot (field : Fund → Qc) := Num.sum ((λ wf, wf.1 * field wf.2) <$> zip ws fs) in
  _blend fs ws !! "equity" = Some (dot equity) ∧
  _blend fs ws !! "abroad" = Some (dot abroad) ∧
  _blend fs ws !! "fx" = Some (dot fx) ∧
  _blend fs ws !! "illiquid" = Some (dot illiquid) ∧
  _blend fs ws !! "sharpe" = Some (dot sharpe).
Proof.
  unfold _blend. repeat split; by simplify_map_eq.
Qed.

Lemma blend_has_metrics fs ws : has_metrics (_blend fs ws).
Proof.
  intros k Hk. destruct (blend_lookup fs ws) as (H1 & H2 & H3 & H4 & _).
  unfold metric_keys in Hk. set_unfold.
  destruct Hk as [-> | [-> | [-> | [-> | []]]]]; eauto.
Qed.

(** ** C8: blending one fund at weight 1 *)

(** C8. For every fund [f], [_blend([f], [1.0])] is a profile whose
    [equity], [abroad], [fx], [illiquid] and [sharpe] entries are exactly
    [f]'s own fields. *)
Theorem blend_single_identity (f : Fund) :
  getitem (_blend [f] [1]) "equity" = Ret (equity f) ∧
  getitem (_blend [f] [1]) "abroad" = Ret (abroad f) ∧
  getitem (_blend [f] [1]) "fx" = Ret (fx f) ∧
  getitem (_blend [f] [1]) "illiquid" = Ret (illiquid f) ∧
  getitem (_blend [f] [1]) "sharpe" = Ret (sharpe f).
Proof.
  destruct (blend_lookup [f] [1]) as (H1 & H2 & H3 & H4 & H5).
  simpl in *. rewrite !sum_singleton in *.
  repeat split; apply getitem_Some;
    [rewrite H1 | rewrite H2 | rewrite H3 | rewrite H4 | rewrite H5];
    f_equal; ring.
Qed.

(** ** C4: the deviation and the score *)

Lemma dev_term_Some v t tw k (x y w : Qc) :
  v !! k = Some x → t !! k = Some y → tw !! k = Some w →
  dev_term v t tw k = Ret (w * Num.abs (x - y)).
Proof.
  intros Hv Ht Hw. unfold dev_term.
  by rewrite (getitem_Some _ _ _ Hw), (getitem_Some _ _ _ Hv),
    (getitem_Some _ _ _ Ht).
Qed.

Lemma deviation_total v t tw :
  has_metrics v → has_metrics t → has_metrics tw →
  ∃ d, _deviation v t tw = Ret d.
Proof.
  intros Hv Ht Hw. unfold _deviation.
  assert (∀ k, k ∈ metric_keys → ∃ d, dev_term v t tw k = Ret d) as Hk.
  { intros k Hin.
    destruct (Hv k Hin) as [x Hx], (Ht k Hin) as [y Hy], (Hw k Hin) as [w Hw'].
    eexists. by apply dev_term_Some. }
  destruct (Hk "equity") as [d1 ->]; [repeat constructor |].
  destruct (Hk "abroad") as [d2 ->]; [repeat constructor |].
  destruct (Hk "fx") as [d3 ->]; [repeat constructor |].
  destruct (Hk "illiquid") as [d4 ->]; [repeat constructor |].
  simpl. eauto.
Qed.

Lemma evaluate_inv t tw sw svw fs ws sv c :
  evaluate t tw sw svw fs ws sv = Ret c →
  ∃ dev sh,
    _deviation (_blend fs ws) t tw = Ret dev ∧
    getitem (_blend fs ws) "sharpe" = Ret sh ∧
    c = mkCandidate fs ws (_blend fs ws) dev sv (_score dev sh sv sw svw).
Proof.
  unfold evaluate. intros H.
  apply bind_Ret in H as (dev & Hdev & H).
  apply bind_Ret in H as (sh & Hsh & H).
  injection H as <-. eauto.
Qed.

Lemma evaluate_total t tw sw svw fs ws sv :
  has_metrics t → has_metrics tw →
  ∃ c, evaluate t tw sw svw fs ws sv = Ret c.
Proof.
  intros Ht Hw. unfold evaluate.
  destruct (deviation_total (_blend fs ws) t tw) as [d ->];
    [apply blend_has_metrics | done | done |].
  destruct (blend_lookup fs ws) as (_ & _ & _ & _ & Hs).
  simpl. rewrite (getitem_Some _ _ _ Hs). simpl. eauto.
Qed.

(** C4. When the profile, the target and the target weights have the keys
    [equity], [abroad], [fx], [illiquid], [_deviation] returns the sum over
    these four keys of [weight[k] * |profile[k] - target[k]|]; the score of
    every candidate the search builds is
    [deviation - sharpe_w * sharpe - service_w * (svc / 100)], and of two
    scores the search keeps the lower one. *)
Theorem deviation_and_score_formula
    (v t tw : gmap string Qc) (pv pt pw : string → Qc)
    (Hkeys : ∀ k, k ∈ metric_keys →
       v !! k = Some (pv k) ∧ t !! k = Some (pt k) ∧ tw !! k = Some (pw k)) :
  _deviation v t tw = Ret (weighted_abs_sum pw pv pt metric_keys) ∧
  (∀ dev sh sv sw svw,
     _score dev sh sv sw svw = dev - sw * sh - svw * (sv / Num.hundred)) ∧
  (∀ sw svw fs ws sv c,
     evaluate t tw sw svw fs ws sv = Ret c →
     ∃ sh, getitem (vals c) "sharpe" = Ret sh ∧
           _deviation (vals c) t tw = Ret (deviation c) ∧
           score c = deviation c - sw * sh - svw * (svc c / Num.hundred)) ∧
  (∀ b c, keep_best (Some b) c = Some (if Num.ltb (score c) (score b) then c else b)).
Proof.
  repeat split.
  - unfold _deviation.
    assert (∀ k, k ∈ metric_keys →
              dev_term v t tw k = Ret (pw k * Num.abs (pv k - pt k))) as Hk.
    { intros k Hin. destruct (Hkeys k Hin) as (Hv & Ht & Hw).
      by apply dev_term_Some. }
    rewrite (Hk "equity"), (Hk "abroad"), (Hk "fx"), (Hk "illiquid")
      by repeat constructor.
    simpl. f_equal. unfold weighted_abs_sum, Num.sum. simpl. ring.
  - intros sw svw fs ws sv c Hc.
    apply evaluate_inv in Hc as (dev & sh & Hdev & Hsh & ->). simpl.
    exists sh. done.
  - intros b c. simpl. by destruct (Num.ltb (score c) (score b)).
Qed.

(** ** C9: monotonicity of the score *)




(** ** C3: fewer funds than requested *)

Lemma msg_too_few_nonempty n len : msg_too_few n len ≠ "".
Proof. unfold msg_too_few. simpl. discriminate. Qed.

Lemma msg_no_combination_nonempty : msg_no_combination ≠ "".
Proof. unfold msg_no_combination. discriminate. Qed.

(** C3. When the catalog has fewer than [n] funds, [compute] returns the
    empty list with a non-empty message and raises nothing, whatever the
    target, the weights and the service map are (in particular when they
    lack the keys every evaluation of a candidate subscripts): the test
    comes before the search. *)
Theorem compute_too_few_funds
    (target target_weights : gmap string Qc) (sharpe_w service_w : Qc)
    (svc_map : gmap string Qc) (dflt_svc : Qc) (same_prov_only : bool)
    (fs : list Fund) (n : Z)
    (Hfew : (Z.of_nat (length fs) < n)%Z) :
  compute target target_weights sharpe_w service_w svc_map dflt_svc
          same_prov_only fs n
    = Ret ([], msg_too_few n (length fs)) ∧
  msg_too_few n (length fs) ≠ "".
Proof.
  split; [| apply msg_too_few_nonempty].
  unfold compute. by apply Z.ltb_lt in Hfew as ->.
Qed.

(** ** The selector: what the two loops maintain *)

Close Scope Qc_scope.

Lemma names_of_snoc l c : names_of (l ++ [c]) = names_of l ∪ names_set c.
Proof. induction l as [| d l IH]; simpl; [| rewrite IH]; set_solver. Qed.

Lemma names_of_elem l c : c ∈ l → names_set c ⊆ names_of l.
Proof.
  induction l as [| d l IH]; simpl; intros Hc.
  - by apply elem_of_nil in Hc.
  - apply elem_of_cons in Hc as [-> | Hc]; [| specialize (IH Hc)]; set_solver.
Qed.

Lemma names_of_prefix l1 l2 : l1 `prefix_of` l2 → names_of l1 ⊆ names_of l2.
Proof.
  intros [k ->]. induction l1 as [| d l IH]; simpl; set_solver.
Qed.

Lemma names_apart_snoc l c :
  names_apart l → names_of l ## names_set c → names_apart (l ++ [c]).
Proof.
  induction l as [| d l IH]; simpl.
  - intros _ _. split; [set_solver | done].
  - intros [Hd Hl] Hc. split.
    + rewrite names_of_snoc. set_solver.
    + apply IH; [done | set_solver].
Qed.

Lemma names_apart_lookup l i j ci cj :
  names_apart l → i ≠ j → l !! i = Some ci → l !! j = Some cj →
  names_set ci ## names_set cj.
Proof.
  revert i j. induction l as [| d l IH]; intros i j Hl Hij Hi Hj; [done |].
  destruct Hl as [Hd Hl].
  destruct i as [| i], j as [| j]; simpl in *; simplify_eq.
  - apply list_elem_of_lookup_2, names_of_elem in Hj. set_solver.
  - apply list_elem_of_lookup_2, names_of_elem in Hi. set_solver.
  - apply (IH i j); [done | lia | done | done].
Qed.

Lemma truthy_false (s : gset string) : truthy s = false ↔ s = ∅.
Proof.
  unfold truthy. rewrite bool_decide_eq_false. split.
  - apply dec_stable.
  - by intros -> H.
Qed.

Lemma truthy_inter_false (s t : gset string) :
  truthy (s ∩ t) = false ↔ s ## t.
Proof. rewrite truthy_false. symmetry. apply disjoint_intersection_L. Qed.

Lemma truthy_inter_true (s t : gset string) :
  truthy (s ∩ t) = true ↔ ¬ s ## t.
Proof.
  rewrite <- truthy_inter_false. by destruct (truthy (s ∩ t)).
Qed.

(** *** The first loop *)

Lemma strict_pass_prefix spo cands st :
  chosen st `prefix_of` chosen (strict_pass spo cands st).
Proof.
  revert st. induction cands as [| c rest IH]; intros st; simpl; [done |].
  destruct (truthy (used_names st ∩ names_set c)); [apply IH |].
  destruct (negb spo && truthy (used_prov st ∩ prov_set c)); [apply IH |].
  simpl. destruct (length (chosen st ++ [c]) =? 3)%nat; simpl.
  - by apply prefix_app_r.
  - etrans; [| apply IH]. simpl. by apply prefix_app_r.
Qed.

Lemma strict_pass_ok spo cands st :
  sel_ok st → sel_ok (strict_pass spo cands st).
Proof.
  revert st. induction cands as [| c rest IH]; intros st Hst; simpl; [done |].
  destruct (truthy (used_names st ∩ names_set c)) eqn:Hn; [by apply IH |].
  destruct (negb spo && truthy (used_prov st ∩ prov_set c)); [by apply IH |].
  apply truthy_inter_false in Hn. destruct Hst as [Hu Ha].
  assert (sel_ok {| chosen := chosen st ++ [c];
                    used_prov := used_prov st ∪ prov_set c;
                    used_names := used_names st ∪ names_set c |}) as Hst'.
  { split; simpl.
    - by rewrite names_of_snoc, Hu.
    - apply names_apart_snoc; [done | by rewrite <- Hu]. }
  simpl. destruct (length (chosen st ++ [c]) =? 3)%nat; [done | by apply IH].
Qed.

Lemma strict_pass_length spo cands st :
  length (chosen st) < 3 → length (chosen (strict_pass spo cands st)) ≤ 3.
Proof.
  revert st. induction cands as [| c rest IH]; intros st Hlen; simpl; [lia |].
  destruct (truthy (used_names st ∩ names_set c)); [by apply IH |].
  destruct (negb spo && truthy (used_prov st ∩ prov_set c)); [by apply IH |].
  simpl. destruct (length (chosen st ++ [c]) =? 3)%nat eqn:E; simpl.
  - apply Nat.eqb_eq in E. lia.
  - apply Nat.eqb_neq in E. apply IH. simpl.
    rewrite length_app in *. simpl in *. lia.
Qed.

(** The head of a non-empty pool is always accepted by the first loop. *)
Lemma strict_pass_head spo c rest :
  [c] `prefix_of` chosen (strict_pass spo (c :: rest) (mkSelection [] ∅ ∅)).
Proof.
  simpl.
  assert (truthy (∅ ∩ names_set c) = false) as ->
    by (apply truthy_inter_false; set_solver).
  assert (truthy (∅ ∩ prov_set c) = false) as ->
    by (apply truthy_inter_false; set_solver).
  rewrite andb_false_r. apply (strict_pass_prefix spo rest
    {| chosen := [c]; used_prov := ∅ ∪ prov_set c;
       used_names := ∅ ∪ names_set c |}).
Qed.

(** *** The second loop *)

Lemma relaxed_pass_prefix cands st :
  chosen st `prefix_of` chosen (relaxed_pass cands st).
Proof.
  revert st. induction cands as [| c rest IH]; intros st; simpl; [done |].
  destruct (bool_decide (c ∈ chosen st)); [apply IH |].
  destruct (truthy (used_names st ∩ names_set c)); [apply IH |].
  simpl. destruct (length (chosen st ++ [c]) =? 3)%nat; simpl.
  - by apply prefix_app_r.
  - etrans; [| apply IH]. simpl. by apply prefix_app_r.
Qed.

Lemma relaxed_pass_ok cands st :
  sel_ok st → sel_ok (relaxed_pass cands st).
Proof.
  revert st. induction cands as [| c rest IH]; intros st Hst; simpl; [done |].
  destruct (bool_decide (c ∈ chosen st)); [by apply IH |].
  destruct (truthy (used_names st ∩ names_set c)) eqn:Hn; [by apply IH |].
  apply truthy_inter_false in Hn. destruct Hst as [Hu Ha].
  assert (sel_ok {| chosen := chosen st ++ [c];
                    used_prov := used_prov st;
                    used_names := used_names st ∪ names_set c |}) as Hst'.
  { split; simpl.
    - by rewrite names_of_snoc, Hu.
    - apply names_apart_snoc; [done | by rewrite <- Hu]. }
  simpl. destruct (length (chosen st ++ [c]) =? 3)%nat; [done | by apply IH].
Qed.

Lemma relaxed_pass_length cands st :
  length (chosen st) < 3 → length (chosen (relaxed_pass cands st)) ≤ 3.
Proof.
  revert st. induction cands as [| c rest IH]; intros st Hlen; simpl; [lia |].
  destruct (bool_decide (c ∈ chosen st)); [by apply IH |].
  destruct (truthy (used_names st ∩ names_set c)); [by apply IH |].
  simpl. destruct (length (chosen st ++ [c]) =? 3)%nat eqn:E; simpl.
  - apply Nat.eqb_eq in E. lia.
  - apply Nat.eqb_neq in E. apply IH. simpl.
    rewrite length_app in *. simpl in *. lia.
Qed.

(** When the second loop ends with fewer than three candidates, it has
    looked at every candidate of the pool and left out only candidates
    that share a fund name with a chosen one (or are chosen already). *)
Lemma relaxed_pass_exhausts cands st c :
  sel_ok st →
  length (chosen (relaxed_pass cands st)) < 3 →
  c ∈ cands →
  c ∈ chosen (relaxed_pass cands st) ∨
  ¬ names_of (chosen (relaxed_pass cands st)) ## names_set c.
Proof.
  revert st. induction cands as [| d rest IH]; intros st Hst Hlen Hc.
  { by apply elem_of_nil in Hc. }
  simpl in *.
  destruct (bool_decide (d ∈ chosen st)) eqn:Hin.
  { apply elem_of_cons in Hc as [-> | Hc]; [| by apply IH].
    left. apply bool_decide_eq_true in Hin.
    destruct (relaxed_pass_prefix rest st) as [k ->]. set_solver. }
  destruct (truthy (used_names st ∩ names_set d)) eqn:Hn.
  { apply elem_of_cons in Hc as [-> | Hc]; [| by apply IH].
    right. apply truthy_inter_true in Hn. destruct Hst as [Hu _].
    rewrite Hu in Hn.
    pose proof (names_of_prefix _ _ (relaxed_pass_prefix rest st)).
    set_solver. }
  apply truthy_inter_false in Hn. destruct Hst as [Hu Ha].
  assert (sel_ok {| chosen := chosen st ++ [d];
                    used_prov := used_prov st;
                    used_names := used_names st ∪ names_set d |}) as Hst'.
  { split; simpl.
    - by rewrite names_of_snoc, Hu.
    - apply names_apart_snoc; [done | by rewrite <- Hu]. }
  destruct (length (chosen st ++ [d]) =? 3)%nat eqn:E.
  { apply Nat.eqb_eq in E. simpl in Hlen. lia. }
  apply elem_of_cons in Hc as [-> | Hc]; [| by apply IH].
  left. destruct (relaxed_pass_prefix rest
    {| chosen := chosen st ++ [d]; used_prov := used_prov st;
       used_names := used_names st ∪ names_set d |}) as [k ->].
  simpl. set_solver.
Qed.

(** *** Both loops and the last fallback *)

Lemma run_passes_ok spo cands : sel_ok (run_passes spo cands).
Proof.
  unfold run_passes.
  assert (sel_ok (strict_pass spo cands (mkSelection [] ∅ ∅))) as H.
  { apply strict_pass_ok. by split. }
  destruct (length _ <? 3); [by apply relaxed_pass_ok | done].
Qed.

Lemma run_passes_length spo cands :
  length (chosen (run_passes spo cands)) ≤ 3.
Proof.
  unfold run_passes.
  destruct (length _ <? 3) eqn:E.
  - apply relaxed_pass_length. by apply Nat.ltb_lt.
  - apply strict_pass_length. simpl. lia.
Qed.

Lemma run_passes_head spo c rest :
  [c] `prefix_of` chosen (run_passes spo (c :: rest)).
Proof.
  unfold run_passes.
  destruct (length _ <? 3); [| apply strict_pass_head].
  etrans; [apply strict_pass_head | apply relaxed_pass_prefix].
Qed.

(** The selection of a non-empty pool is never empty, so [chosen] is what
    [compute] returns: the branch [chosen = candidates[:3]] changes nothing. *)
Lemma run_passes_nonempty spo cands :
  cands ≠ [] → chosen (run_passes spo cands) ≠ [].
Proof.
  destruct cands as [| c rest]; [done |]. intros _ Hnil.
  destruct (run_passes_head spo c rest) as [k Hk].
  by rewrite Hnil in Hk.
Qed.

Lemma select_chosen spo cands :
  select spo cands = chosen (run_passes spo cands).
Proof.
  unfold select. destruct cands as [| c rest].
  - by vm_compute.
  - pose proof (run_passes_nonempty spo (c :: rest)) as H.
    destruct (chosen (run_passes spo (c :: rest))); [by destruct H | done].
Qed.

Lemma select_head spo c rest : ∃ tl, select spo (c :: rest) = c :: tl.
Proof.
  rewrite select_chosen. destruct (run_passes_head spo c rest) as [k ->].
  by exists k.
Qed.

Lemma names_of_meets l c :
  ¬ names_of l ## names_set c →
  ∃ d, d ∈ l ∧ names_set c ∩ names_set d ≠ ∅.
Proof.
  induction l as [| d l IH]; simpl; intros H.
  - destruct H. set_solver.
  - destruct (decide (names_set d ## names_set c)) as [Hd | Hd].
    + destruct IH as (e & He & Hne); [set_solver |].
      exists e. split; [by right | done].
    + exists d. split; [left | set_solver].
Qed.

(** ** The sort *)

Lemma insert_by_score_perm c l : insert_by_score c l ≡ₚ c :: l.
Proof.
  induction l as [| d l IH]; simpl; [done |].
  destruct (Num.ltb (score d) (score c)); [| done].
  rewrite IH. apply Permutation_swap.
Qed.

Lemma sort_by_score_perm l : sort_by_score l ≡ₚ l.
Proof.
  induction l as [| c l IH]; simpl; [done |].
  by rewrite insert_by_score_perm, IH.
Qed.

Lemma insert_by_score_sorted c l :
  StronglySorted (λ a b, (score a ≤ score b)%Qc) l →
  StronglySorted (λ a b, (score a ≤ score b)%Qc) (insert_by_score c l).
Proof.
  induction 1 as [| d l Hl IH Hd]; simpl.
  - repeat constructor.
  - destruct (Num.ltb (score d) (score c)) eqn:E.
    + apply ltb_true in E. constructor; [done |].
      rewrite insert_by_score_perm. constructor; [| done].
      by apply Qclt_le_weak.
    + apply ltb_false in E. constructor; [by constructor |].
      constructor; [done |].
      eapply Forall_impl; [exact Hd |]. simpl. intros e He.
      by apply Qcle_trans with (score d).
Qed.

Lemma sort_by_score_sorted l :
  StronglySorted (λ a b, (score a ≤ score b)%Qc) (sort_by_score l).
Proof.
  induction l as [| c l IH]; simpl; [constructor |].
  by apply insert_by_score_sorted.
Qed.

(** The head of the sorted pool has the least score of the pool. *)
Lemma sort_by_score_head l c rest :
  sort_by_score l = c :: rest → ∀ d, d ∈ l → (score c ≤ score d)%Qc.
Proof.
  intros Hs d Hd. pose proof (sort_by_score_sorted l) as Hsorted.
  rewrite <- (sort_by_score_perm l), Hs in Hd. rewrite Hs in Hsorted.
  apply StronglySorted_inv in Hsorted as [_ Hall].
  apply elem_of_cons in Hd as [-> | Hd]; [apply Qcle_refl |].
  by eapply Forall_forall in Hall.
Qed.

(** ** The search returns when the target dicts have their keys *)

Section Totality.

Variables (target target_weights : gmap string Qc).
Variables (sharpe_w service_w : Qc).
Variables (svc_map : gmap string Qc) (dflt_svc : Qc).
Variable same_prov_only : bool.
Hypothesis Htarget : has_metrics target.
Hypothesis Hweights : has_metrics target_weights.

Lemma search1_total fs :
  ∃ pool, search1 target target_weights sharpe_w service_w svc_map dflt_svc fs
          = Ret pool.
Proof.
  apply for_each_total. intros f cs _. unfold single_step.
  destruct (evaluate_total target target_weights sharpe_w service_w [f] [1%Qc]
              (dict_get svc_map (provider f) dflt_svc)) as [c ->]; [done.. |].
  simpl. eauto.
Qed.

Lemma best_pair_total f1 f2 :
  ∃ best, best_pair target target_weights sharpe_w service_w svc_map dflt_svc
            f1 f2 = Ret best.
Proof.
  apply for_each_total. intros w best _. unfold pair_weight_step.
  match goal with |- context [evaluate ?a ?b ?c ?d ?e ?f ?g] =>
    destruct (evaluate_total a b c d e f g) as [c0 ->]; [done.. |] end.
  simpl. eauto.
Qed.

Lemma search2_total fs :
  ∃ pool, search2 target target_weights sharpe_w service_w svc_map dflt_svc
            same_prov_only fs = Ret pool.
Proof.
  apply for_each_total. intros [f1 f2] cs _. unfold pair_step.
  destruct (same_prov_only && _); [simpl; eauto |].
  destruct (best_pair_total f1 f2) as [best ->]. simpl. eauto.
Qed.

Lemma triple_weight_step_total f1 f2 f3 w1 w2 best :
  ∃ best', triple_weight_step target target_weights sharpe_w service_w
             svc_map dflt_svc f1 f2 f3 w1 w2 best = Ret best'.
Proof.
  unfold triple_weight_step. destruct (_ || _); [simpl; eauto |].
  match goal with |- context [evaluate ?a ?b ?c ?d ?e ?f ?g] =>
    destruct (evaluate_total a b c d e f g) as [c0 ->]; [done.. |] end.
  simpl. eauto.
Qed.

Lemma best_triple_total f1 f2 f3 :
  ∃ best, best_triple target target_weights sharpe_w service_w svc_map
            dflt_svc f1 f2 f3 = Ret best.
Proof.
  apply for_each_total. intros w1 best _.
  apply for_each_total. intros w2 best' _.
  apply triple_weight_step_total.
Qed.

Lemma search3_total fs :
  ∃ pool, search3 target target_weights sharpe_w service_w svc_map dflt_svc
            same_prov_only fs = Ret pool.
Proof.
  apply for_each_total. intros [[f1 f2] f3] cs _. unfold triple_step.
  destruct (same_prov_only && _); [simpl; eauto |].
  destruct (best_triple_total f1 f2 f3) as [best ->]. simpl. eauto.
Qed.

Lemma search_total fs n :
  ∃ pool, search target target_weights sharpe_w service_w svc_map dflt_svc
            same_prov_only fs n = Ret pool.
Proof.
  unfold search. destruct (n =? 1)%Z; [apply search1_total |].
  destruct (n =? 2)%Z; [apply search2_total | apply search3_total].
Qed.

Lemma compute_total fs n :
  ∃ r, compute target target_weights sharpe_w service_w svc_map dflt_svc
         same_prov_only fs n = Ret r.
Proof.
  unfold compute. destruct (_ <? n)%Z; [simpl; eauto |].
  destruct (search_total fs n) as [pool ->]. simpl.
  destruct pool; eauto.
Qed.

End Totality.

(** ** C1, C7, C10: the selector *)

(** C1 (the claim as stated fails). On the catalog of three funds with
    [n = 2] the sorted pool has three candidates, one per pair, and any two
    of them share a fund: the selector returns one candidate although the
    pool has three. *)
Lemma select_fewer_than_three_counterexample :
  Scenario.run Scenario.catalog 2
    = Ret (select false (Scenario.sorted_pool Scenario.catalog 2), "") ∧
  length (Scenario.sorted_pool Scenario.catalog 2) = 3 ∧
  length (select false (Scenario.sorted_pool Scenario.catalog 2)) = 1 ∧
  ¬ (length (select false (Scenario.sorted_pool Scenario.catalog 2)) < 3 →
     length (Scenario.sorted_pool Scenario.catalog 2) < 3).
Proof.
  assert (length (Scenario.sorted_pool Scenario.catalog 2) = 3) as H3
    by (vm_compute; reflexivity).
  assert (length (select false (Scenario.sorted_pool Scenario.catalog 2)) = 1)
    as H1 by (vm_compute; reflexivity).
  split; [vm_compute; reflexivity |].
  split; [exact H3 |]. split; [exact H1 |].
  rewrite H1, H3. intros H. specialize (H ltac:(lia)). lia.
Qed.

(** C1 (amended). The selector returns at most 3 candidates, and when it
    returns fewer than 3, every candidate of the pool is either returned or
    shares a fund name with a returned candidate. *)
Theorem select_at_most_three (spo : bool) (cands : list Candidate) :
  length (select spo cands) ≤ 3 ∧
  (length (select spo cands) < 3 →
   ∀ c, c ∈ cands →
     c ∈ select spo cands ∨
     ∃ d, d ∈ select spo cands ∧ names_set c ∩ names_set d ≠ ∅).
Proof.
  rewrite select_chosen. split; [apply run_passes_length |].
  intros Hlen c Hc. unfold run_passes in *.
  pose proof (strict_pass_ok spo cands (mkSelection [] ∅ ∅)) as Hok.
  destruct (length _ <? 3) eqn:E.
  - destruct (relaxed_pass_exhausts cands _ c (Hok ltac:(by split)) Hlen Hc)
      as [Hin | Hmeet]; [by left | right].
    by apply names_of_meets.
  - apply Nat.ltb_ge in E. lia.
Qed.

Lemma select_at_most_three_witness :
  length (select false (Scenario.sorted_pool Scenario.catalog 2)) ≤ 3 ∧
  ∀ c, c ∈ Scenario.sorted_pool Scenario.catalog 2 →
    c ∈ select false (Scenario.sorted_pool Scenario.catalog 2) ∨
    ∃ d, d ∈ select false (Scenario.sorted_pool Scenario.catalog 2) ∧
         names_set c ∩ names_set d ≠ ∅.
Proof.
  destruct (select_at_most_three false
              (Scenario.sorted_pool Scenario.catalog 2)) as [Hle Hall].
  split; [exact Hle |]. apply Hall. vm_compute. lia.
Defined.

(** C7. Two different candidates returned by the selector never have a
    fund name in common. *)
Theorem select_names_unique (spo : bool) (cands : list Candidate)
    (i j : nat) (ci cj : Candidate) (f g : Fund) :
  i ≠ j →
  select spo cands !! i = Some ci →
  select spo cands !! j = Some cj →
  f ∈ funds ci → g ∈ funds cj →
  name f ≠ name g.
Proof.
  rewrite select_chosen. intros Hij Hi Hj Hf Hg Heq.
  destruct (run_passes_ok spo cands) as [_ Hapart].
  pose proof (names_apart_lookup _ i j ci cj Hapart Hij Hi Hj) as Hdisj.
  apply (Hdisj (name f)); unfold names_set; apply elem_of_list_to_set.
  - by apply list_elem_of_fmap_2.
  - rewrite Heq. by apply list_elem_of_fmap_2.
Qed.

Lemma select_names_unique_witness :
  ∃ ci cj,
    select false (Scenario.sorted_pool Scenario.catalog 1) !! 0 = Some ci ∧
    select false (Scenario.sorted_pool Scenario.catalog 1) !! 1 = Some cj ∧
    funds ci = [Scenario.fundX] ∧ funds cj = [Scenario.fundY] ∧
    name Scenario.fundX ≠ name Scenario.fundY.
Proof.
  eexists _, _.
  split; [vm_compute; reflexivity |].
  split; [vm_compute; reflexivity |].
  split; [reflexivity |]. split; [reflexivity |].
  eapply (select_names_unique false
            (Scenario.sorted_pool Scenario.catalog 1) 0 1).
  - lia.
  - vm_compute; reflexivity.
  - vm_compute; reflexivity.
  - simpl. left.
  - simpl. left.
Defined.

(** What [compute] does with the pool the search returned. *)
Lemma compute_of_pool
    (target target_weights : gmap string Qc) (sharpe_w service_w : Qc)
    (svc_map : gmap string Qc) (dflt_svc : Qc) (same_prov_only : bool)
    (fs : list Fund) (n : Z) (pool : list Candidate) :
  (n ≤ Z.of_nat (length fs))%Z →
  search target target_weights sharpe_w service_w svc_map dflt_svc
    same_prov_only fs n = Ret pool →
  compute target target_weights sharpe_w service_w svc_map dflt_svc
    same_prov_only fs n
  = Ret (match pool with
         | [] => ([], msg_no_combination)
         | _ => (select same_prov_only (sort_by_score pool), "")
         end).
Proof.
  intros Hlen Hsearch. unfold compute.
  apply Z.ltb_ge in Hlen as ->. rewrite Hsearch. simpl. by destruct pool.
Qed.

(** The selection from a sorted non-empty pool starts with a candidate of
    least score. *)
Lemma select_sorted_pool spo pool :
  pool ≠ [] →
  ∃ c rest,
    select spo (sort_by_score pool) = c :: rest ∧
    c ∈ pool ∧
    (∀ d, d ∈ pool → (score c ≤ score d)%Qc).
Proof.
  intros Hpool. destruct (sort_by_score pool) as [| c tl] eqn:Hsort.
  { apply (f_equal length) in Hsort.
    rewrite (Permutation_length (sort_by_score_perm pool)) in Hsort.
    by destruct pool. }
  destruct (select_head spo c tl) as [rest Hsel].
  exists c, rest. split; [done |]. split.
  - rewrite <- (sort_by_score_perm pool), Hsort. left.
  - by apply (sort_by_score_head pool c tl).
Qed.

(** C10. When the search finds a non-empty pool, [compute] returns a
    non-empty list whose first candidate belongs to the pool and has the
    least score of the pool; the list is the selection of the two loops
    itself, which is therefore not empty: the [candidates[:3]] fallback
    never replaces an empty selection of a non-empty pool. *)
Theorem compute_first_is_best
    (target target_weights : gmap string Qc) (sharpe_w service_w : Qc)
    (svc_map : gmap string Qc) (dflt_svc : Qc) (same_prov_only : bool)
    (fs : list Fund) (n : Z) (pool : list Candidate)
    (Hlen : (n ≤ Z.of_nat (length fs))%Z)
    (Hsearch : search target target_weights sharpe_w service_w svc_map
                 dflt_svc same_prov_only fs n = Ret pool)
    (Hpool : pool ≠ []) :
  ∃ c rest,
    compute target target_weights sharpe_w service_w svc_map dflt_svc
            same_prov_only fs n = Ret (c :: rest, "") ∧
    c ∈ pool ∧
    (∀ d, d ∈ pool → (score c ≤ score d)%Qc) ∧
    chosen (run_passes same_prov_only (sort_by_score pool)) = c :: rest.
Proof.
  destruct (select_sorted_pool same_prov_only pool Hpool)
    as (c & rest & Hsel & Hin & Hmin).
  exists c, rest. split; [| split; [done | split; [done |]]].
  - rewrite (compute_of_pool _ _ _ _ _ _ _ _ _ pool Hlen Hsearch).
    destruct pool; [done |]. by rewrite Hsel.
  - by rewrite <- select_chosen.
Qed.

Lemma compute_first_is_best_witness :
  ∃ c rest,
    Scenario.run Scenario.catalog 2 = Ret (c :: rest, "") ∧
    c ∈ Scenario.pool Scenario.catalog 2 ∧
    (∀ d, d ∈ Scenario.pool Scenario.catalog 2 → (score c ≤ score d)%Qc) ∧
    chosen (run_passes false (Scenario.sorted_pool Scenario.catalog 2))
      = c :: rest.
Proof.
  apply compute_first_is_best.
  - vm_compute. discriminate.
  - vm_compute. reflexivity.
  - vm_compute. discriminate.
Defined.

(** ** C2: what [compute] returns *)

(** C2. Whenever [compute] returns a pair, exactly one component is
    populated: either the list is non-empty, of length at most 3, and the
    message is the empty string, or the list is empty and the message is
    not. And [compute] does return a pair whenever the target and the
    target weights have the four metric keys. *)
Theorem compute_outcome
    (target target_weights : gmap string Qc) (sharpe_w service_w : Qc)
    (svc_map : gmap string Qc) (dflt_svc : Qc) (same_prov_only : bool)
    (fs : list Fund) (n : Z) :
  (∀ cs msg,
     compute target target_weights sharpe_w service_w svc_map dflt_svc
             same_prov_only fs n = Ret (cs, msg) →
     (cs ≠ [] ∧ length cs ≤ 3 ∧ msg = "") ∨ (cs = [] ∧ msg ≠ "")) ∧
  (has_metrics target → has_metrics target_weights →
   ∃ cs msg,
     compute target target_weights sharpe_w service_w svc_map dflt_svc
             same_prov_only fs n = Ret (cs, msg)).
Proof.
  split.
  - intros cs msg H.
    destruct (Z.of_nat (length fs) <? n)%Z eqn:Hlen.
    { unfold compute in H. rewrite Hlen in H. injection H as <- <-.
      right. split; [done | apply msg_too_few_nonempty]. }
    apply Z.ltb_ge in Hlen.
    assert (∃ pool, search target target_weights sharpe_w service_w svc_map
                      dflt_svc same_prov_only fs n = Ret pool)
      as [pool Hsearch].
    { unfold compute in H. apply Z.ltb_ge in Hlen. rewrite Hlen in H.
      apply bind_Ret in H as (pool & Hs & _). eauto. }
    rewrite (compute_of_pool _ _ _ _ _ _ _ _ _ pool Hlen Hsearch) in H.
    destruct (decide (pool = [])) as [-> | Hne].
    { injection H as <- <-. right.
      split; [done | apply msg_no_combination_nonempty]. }
    destruct (select_sorted_pool same_prov_only pool Hne)
      as (c & rest & Hsel & _).
    assert (cs = select same_prov_only (sort_by_score pool) ∧ msg = "")
      as [-> ->] by (destruct pool; [done | by injection H as <- <-]).
    left. split; [by rewrite Hsel |].
    split; [rewrite select_chosen; apply run_passes_length | done].
  - intros Ht Hw.
    destruct (compute_total _ _ sharpe_w service_w svc_map dflt_svc
                same_prov_only Ht Hw fs n) as [[cs msg] H].
    eauto.
Qed.

Lemma scenario_has_metrics :
  has_metrics Scenario.target ∧ has_metrics Scenario.equal_weights.
Proof.
  split; intros k Hk; unfold metric_keys in Hk;
    repeat (apply elem_of_cons in Hk as [-> | Hk]; [by eexists |]);
    by apply elem_of_nil in Hk.
Defined.

Lemma compute_outcome_witness :
  (Scenario.returned (Scenario.run Scenario.catalog 2) ≠ [] ∧
   length (Scenario.returned (Scenario.run Scenario.catalog 2)) ≤ 3) ∧
  (∃ cs msg, Scenario.run Scenario.catalog 2 = Ret (cs, msg)).
Proof.
  destruct (compute_outcome Scenario.target Scenario.equal_weights 0%Qc 0%Qc
              ∅ (Num.of_Z 70) false Scenario.catalog 2) as [Hone Hret].
  split.
  - destruct (Hone (Scenario.returned (Scenario.run Scenario.catalog 2)) "")
      as [(Hne & Hle & _) | (Hnil & _)].
    + vm_compute. reflexivity.
    + by split.
    + vm_compute in Hnil. discriminate.
  - apply Hret; apply scenario_has_metrics.
Defined.

(** ** Loops that keep the best candidate *)

Open Scope Qc_scope.

Lemma keep_best_le best c b :
  keep_best best c = Some b →
  score b ≤ score c ∧ (∀ b0, best = Some b0 → score b ≤ score b0) ∧
  (b = c ∨ best = Some b).
Proof.
  unfold keep_best. destruct best as [b0 |].
  - destruct (Num.ltb (score c) (score b0)) eqn:E; intros [= <-].
    + apply ltb_true in E. split; [apply Qcle_refl |]. split; [| by left].
      intros b1 [= <-]. by apply Qclt_le_weak.
    + apply ltb_false in E. split; [done |]. split; [| by right].
      intros b1 [= <-]. apply Qcle_refl.
  - intros [= <-]. split; [apply Qcle_refl |]. split; [done | by left].
Qed.

Lemma keep_best_is_Some best c : ∃ b, keep_best best c = Some b.
Proof.
  unfold keep_best. destruct best as [b0 |]; [| eauto].
  destruct (Num.ltb _ _); eauto.
Qed.

(** After the loop, [best] is the incoming [best] or one of the evaluated
    candidates, and its score is at most the score of each of them and of
    the incoming one. *)
Lemma min_loop {W} (ev : W → exc Candidate) (ws : list W)
    (best0 best : option Candidate) :
  for_each ws (min_step ev) best0 = Ret best →
  (best = best0 ∨ ∃ w c, w ∈ ws ∧ ev w = Ret c ∧ best = Some c) ∧
  (∀ w, w ∈ ws → ∃ c b, ev w = Ret c ∧ best = Some b ∧ score b ≤ score c) ∧
  (∀ b0, best0 = Some b0 → ∃ b, best = Some b ∧ score b ≤ score b0).
Proof.
  revert best0. induction ws as [| w ws IH]; intros best0 H; simpl in H.
  { injection H as <-. split; [by left |]. split.
    - intros w Hw. by apply elem_of_nil in Hw.
    - intros b0 ->. exists b0. split; [done | apply Qcle_refl]. }
  apply bind_Ret in H as (best1 & Hstep & Hrest).
  unfold min_step in Hstep. apply bind_Ret in Hstep as (c & Hev & Hkeep).
  injection Hkeep as <-.
  destruct (keep_best_is_Some best0 c) as [b1 Hb1].
  destruct (keep_best_le _ _ _ Hb1) as (Hle_c & Hle_0 & Hwhich).
  destruct (IH _ Hrest) as (Hfrom & Hall & Hkeepmin).
  destruct (Hkeepmin b1 Hb1) as (b & -> & Hb).
  split; [| split].
  - destruct Hfrom as [Heq | (w' & c' & Hw' & Hev' & Heq)].
    + rewrite Hb1 in Heq. injection Heq as ->.
      destruct Hwhich as [-> | Hold]; [| by left].
      right. exists w, c. split; [left | done].
    + right. exists w', c'. split; [by right | done].
  - intros w' Hw'. apply elem_of_cons in Hw' as [-> | Hw'].
    + exists c, b. split; [done |]. split; [done |].
      by apply Qcle_trans with (score b1).
    + destruct (Hall w' Hw') as (c' & b' & Hev' & [= <-] & Hle).
      by exists c', b.
  - intros b0 ->. exists b. split; [done |].
    apply Qcle_trans with (score b1); [done | by apply Hle_0].
Qed.

(** A loop over a non-empty list from [None] ends with the least
    candidate. *)
Lemma min_loop_least {W} (ev : W → exc Candidate) (ws : list W)
    (best : option Candidate) :
  ws ≠ [] →
  for_each ws (min_step ev) None = Ret best →
  ∃ b, best = Some b ∧ least_of ev ws b.
Proof.
  intros Hne H. destruct (min_loop ev ws None best H) as (Hfrom & Hall & _).
  destruct ws as [| w0 ws']; [done |].
  destruct (Hall w0) as (c0 & b & _ & -> & _); [left |].
  exists b. split; [done |]. split.
  - destruct Hfrom as [[=] | (w & c & Hw & Hev & [= <-])]. eauto.
  - intros w Hw. destruct (Hall w Hw) as (c & b' & Hev & [= <-] & Hle). eauto.
Qed.

(** ** C6: the pool of the two-fund search *)



Lemma grid_length : length grid = 101%nat.
Proof. unfold grid, range. by rewrite length_fmap, length_seqZ. Qed.

Lemma grid_nonempty : grid ≠ [].
Proof. intros H. apply (f_equal length) in H. by rewrite grid_length in H. Qed.

Section PairSearch.

Variables (target target_weights : gmap string Qc).
Variables (sharpe_w service_w : Qc).
Variables (svc_map : gmap string Qc) (dflt_svc : Qc).
Variable same_prov_only : bool.

Let ev := pair_eval target target_weights sharpe_w service_w svc_map dflt_svc.
Let step := pair_step target target_weights sharpe_w service_w svc_map
              dflt_svc same_prov_only.

Lemma best_pair_least f1 f2 best :
  best_pair target target_weights sharpe_w service_w svc_map dflt_svc f1 f2
    = Ret best →
  ∃ b, best = Some b ∧ least_of (ev (f1, f2)) grid b.
Proof.
  intros H. apply (min_loop_least (ev (f1, f2)) grid best grid_nonempty H).
Qed.

(** The loop over the pairs appends, in order, the least candidate of each
    eligible pair, and nothing else. *)
Lemma pairs_loop ps acc pool :
  for_each ps step acc = Ret pool →
  ∃ new, pool = acc ++ new ∧
    Forall2 (λ p c, least_of (ev p) grid c)
            (filter (λ p, eligible_pair same_prov_only p = true) ps) new.
Proof.
  revert acc. induction ps as [| [f1 f2] ps IH]; intros acc H; simpl in H.
  { injection H as <-. exists []. split; [by rewrite app_nil_r | constructor]. }
  apply bind_Ret in H as (acc' & Hstep & Hrest).
  destruct (IH _ Hrest) as (new & -> & Hnew).
  unfold step, pair_step in Hstep.
  destruct (eligible_pair same_prov_only (f1, f2)) eqn:E.
  - rewrite filter_cons_True by done.
    unfold eligible_pair in E. simpl in E. apply negb_true_iff in E.
    rewrite E in Hstep.
    apply bind_Ret in Hstep as (best & Hbest & Hacc).
    destruct (best_pair_least _ _ _ Hbest) as (b & -> & Hb).
    injection Hacc as <-.
    exists (b :: new). split; [by rewrite <- app_assoc | by constructor].
  - rewrite filter_cons_False by (by rewrite E).
    unfold eligible_pair in E. simpl in E. apply negb_false_iff in E.
    rewrite E in Hstep. injection Hstep as <-. by exists new.
Qed.

End PairSearch.




(** ** C5: the grid of the three-fund search *)




Lemma grid1_head : ∃ ws, grid1 = 0 :: ws.
Proof.
  exists ((λ i, Num.of_Z i / Num.of_Z 20) <$> seqZ 1 20).
  apply (bool_decide_unpack _). vm_compute. exact I.
Qed.

Lemma clamp_bounds (w3 : Qc) : 0 ≤ clamp w3 ∧ clamp w3 ≤ 1.
Proof.
  unfold clamp, Num.max, Num.min.
  destruct (Num.ltb w3 1) eqn:E1.
  - apply ltb_true in E1.
    destruct (Num.ltb 0 w3) eqn:E2.
    + apply ltb_true in E2. split; by apply Qclt_le_weak.
    + split; [apply Qcle_refl | by vm_compute].
  - destruct (Num.ltb 0 1) eqn:E2.
    + split; [by vm_compute | apply Qcle_refl].
    + by vm_compute in E2.
Qed.

Section TripleSearch.

Variables (target target_weights : gmap string Qc).
Variables (sharpe_w service_w : Qc).
Variables (svc_map : gmap string Qc) (dflt_svc : Qc).

Let ev := triple_eval target target_weights sharpe_w service_w svc_map dflt_svc.



Hypothesis Htarget : has_metrics target.
Hypothesis Hweights : has_metrics target_weights.


End TripleSearch.


(** ** Instances on the small catalog *)

Lemma compute_too_few_funds_witness :
  compute ∅ ∅ 0 0 ∅ 0 false [Scenario.fundX] 2
    = Ret ([], msg_too_few 2 1) ∧
  msg_too_few 2 1 ≠ "".
Proof.
  apply (compute_too_few_funds ∅ ∅ 0 0 ∅ 0 false [Scenario.fundX] 2).
  simpl. lia.
Defined.

Lemma deviation_and_score_formula_witness :
  _deviation (_blend [Scenario.fundX; Scenario.fundY] [Q2Qc (1 # 2); Q2Qc (1 # 2)])
             Scenario.target Scenario.equal_weights
  = Ret (weighted_abs_sum
           (λ k, dict_get Scenario.equal_weights k 0)
           (λ k, dict_get (_blend [Scenario.fundX; Scenario.fundY]
                                  [Q2Qc (1 # 2); Q2Qc (1 # 2)]) k 0)
           (λ k, dict_get Scenario.target k 0)
           metric_keys).
Proof.
  apply deviation_and_score_formula.
  intros k Hk. unfold metric_keys in Hk.
  repeat (apply elem_of_cons in Hk as [-> | Hk];
          [vm_compute; repeat split; reflexivity |]).
  by apply elem_of_nil in Hk.
Defined.




(** * Properties of the rest of the engine *)

(** ** Missing keys *)

(** A loop raises [e] as soon as one element makes its body raise [e]
    whatever the loop variables are, the elements before it returning. *)
Lemma for_each_raises {A S} (xs : list A) (body : A → S → exc S) (e : error)
    (s : S) :
  (∀ x s0, x ∈ xs → body x s0 = Raise e ∨ ∃ s1, body x s0 = Ret s1) →
  (∃ x, x ∈ xs ∧ ∀ s0, body x s0 = Raise e) →
  for_each xs body s = Raise e.
Proof.
  revert s. induction xs as [| x xs IH]; intros s Hall (y & Hy & Hraise).
  { by apply elem_of_nil in Hy. }
  simpl. destruct (Hall x s) as [-> | [s1 Hs1]]; [left | done |].
  rewrite Hs1. simpl. apply IH.
  - intros z s0 Hz. apply Hall. by right.
  - apply elem_of_cons in Hy as [-> | Hy]; [| eauto].
    by rewrite Hraise in Hs1.
Qed.

Lemma getitem_None {V} (d : gmap string V) k :
  d !! k = None → getitem d k = Raise (KeyError k).
Proof. unfold getitem. by intros ->. Qed.

Lemma dev_term_cases v t tw k :
  is_Some (v !! k) →
  (is_Some (t !! k) ∧ is_Some (tw !! k) ∧ ∃ d, dev_term v t tw k = Ret d) ∨
  ((t !! k = None ∨ tw !! k = None) ∧ dev_term v t tw k = Raise (KeyError k)).
Proof.
  intros [x Hx]. unfold dev_term.
  destruct (tw !! k) as [w |] eqn:Hw.
  - rewrite (getitem_Some _ _ _ Hw), (getitem_Some _ _ _ Hx). simpl.
    destruct (t !! k) as [y |] eqn:Ht.
    + rewrite (getitem_Some _ _ _ Ht). simpl. left. eauto.
    + rewrite (getitem_None _ _ Ht). simpl. right. eauto.
  - rewrite (getitem_None _ _ Hw). simpl. right. eauto.
Qed.

(** The key [_deviation] fails on does not depend on the profile. *)
Lemma deviation_raises t tw :
  ¬ (has_metrics t ∧ has_metrics tw) →
  ∃ k, k ∈ metric_keys ∧ (t !! k = None ∨ tw !! k = None) ∧
       ∀ v, has_metrics v → _deviation v t tw = Raise (KeyError k).
Proof.
  intros Hnot.
  assert (∀ k, {is_Some (t !! k) ∧ is_Some (tw !! k)}
               + {t !! k = None ∨ tw !! k = None}) as Hdec.
  { intros k. destruct (t !! k), (tw !! k); eauto. }
  assert (∀ k v, has_metrics v → k ∈ metric_keys →
            t !! k = None ∨ tw !! k = None →
            dev_term v t tw k = Raise (KeyError k)) as Hbad.
  { intros k v Hv Hk Hnone.
    destruct (dev_term_cases v t tw k (Hv k Hk))
      as [([? ?] & [? ?] & _) | [_ H]]; [| done].
    destruct Hnone; congruence. }
  assert (∀ k v, has_metrics v → k ∈ metric_keys →
            is_Some (t !! k) ∧ is_Some (tw !! k) →
            ∃ d, dev_term v t tw k = Ret d) as Hgood.
  { intros k v Hv Hk [[y Hy] [w Hw]].
    destruct (dev_term_cases v t tw k (Hv k Hk))
      as [(_ & _ & H) | [[H | H] _]]; [done | congruence | congruence]. }
  assert ("equity" ∈ metric_keys) as K1 by repeat constructor.
  assert ("abroad" ∈ metric_keys) as K2 by repeat constructor.
  assert ("fx" ∈ metric_keys) as K3 by repeat constructor.
  assert ("illiquid" ∈ metric_keys) as K4 by repeat constructor.
  destruct (Hdec "equity") as [G1 | B1].
  2: { exists "equity". split; [done |]. split; [done |]. intros v Hv.
       unfold _deviation. by rewrite (Hbad _ v Hv K1 B1). }
  destruct (Hdec "abroad") as [G2 | B2].
  2: { exists "abroad". split; [done |]. split; [done |]. intros v Hv.
       unfold _deviation. destruct (Hgood _ v Hv K1 G1) as [d1 ->].
       by rewrite (Hbad _ v Hv K2 B2). }
  destruct (Hdec "fx") as [G3 | B3].
  2: { exists "fx". split; [done |]. split; [done |]. intros v Hv.
       unfold _deviation. destruct (Hgood _ v Hv K1 G1) as [d1 ->].
       destruct (Hgood _ v Hv K2 G2) as [d2 ->].
       by rewrite (Hbad _ v Hv K3 B3). }
  destruct (Hdec "illiquid") as [G4 | B4].
  2: { exists "illiquid". split; [done |]. split; [done |]. intros v Hv.
       unfold _deviation. destruct (Hgood _ v Hv K1 G1) as [d1 ->].
       destruct (Hgood _ v Hv K2 G2) as [d2 ->].
       destruct (Hgood _ v Hv K3 G3) as [d3 ->].
       by rewrite (Hbad _ v Hv K4 B4). }
  exfalso. apply Hnot.
  split; intros k Hk; unfold metric_keys in Hk;
    repeat (apply elem_of_cons in Hk as [-> | Hk]; [tauto |]);
    by apply elem_of_nil in Hk.
Qed.

Section MissingKeys.

Variables (target target_weights : gmap string Qc).
Variables (sharpe_w service_w : Qc).
Variables (svc_map : gmap string Qc) (dflt_svc : Qc).
Variable same_prov_only : bool.
Variable k : string.
Hypothesis Hk : ∀ v, has_metrics v →
  _deviation v target target_weights = Raise (KeyError k).

Lemma evaluate_raises fs ws sv :
  evaluate target target_weights sharpe_w service_w fs ws sv
    = Raise (KeyError k).
Proof. unfold evaluate. by rewrite (Hk _ (blend_has_metrics fs ws)). Qed.

Lemma search1_raises fs :
  fs ≠ [] →
  search1 target target_weights sharpe_w service_w svc_map dflt_svc fs
    = Raise (KeyError k).
Proof.
  intros Hne. destruct fs as [| f fs']; [done |].
  unfold search1. rewrite for_each_cons.
  assert (single_step target target_weights sharpe_w service_w svc_map
            dflt_svc f [] = Raise (KeyError k)) as ->; [| done].
  unfold single_step. by rewrite evaluate_raises.
Qed.

Lemma best_pair_raises f1 f2 :
  best_pair target target_weights sharpe_w service_w svc_map dflt_svc f1 f2
    = Raise (KeyError k).
Proof.
  unfold best_pair. pose proof grid_nonempty as Hg.
  destruct grid as [| w ws]; [done |].
  rewrite for_each_cons.
  assert (pair_weight_step target target_weights sharpe_w service_w svc_map
            dflt_svc f1 f2 w None = Raise (KeyError k)) as ->; [| done].
  unfold pair_weight_step. by rewrite evaluate_raises.
Qed.

Lemma pair_step_cases p acc :
  pair_step target target_weights sharpe_w service_w svc_map dflt_svc
    same_prov_only p acc
  = if eligible_pair same_prov_only p then Raise (KeyError k) else Ret acc.
Proof.
  destruct p as [f1 f2]. unfold pair_step, eligible_pair.
  cbn [fst snd]. destruct (same_prov_only && _); cbn [negb]; [done |].
  by rewrite best_pair_raises.
Qed.

Lemma search2_raises fs :
  (∃ p, p ∈ combinations2 fs ∧ eligible_pair same_prov_only p = true) →
  search2 target target_weights sharpe_w service_w svc_map dflt_svc
    same_prov_only fs = Raise (KeyError k).
Proof.
  intros (p & Hp & Hel). unfold search2. apply for_each_raises.
  - intros q acc _. rewrite pair_step_cases.
    destruct (eligible_pair same_prov_only q); eauto.
  - exists p. split; [done |]. intros acc.
    by rewrite pair_step_cases, Hel.
Qed.

Lemma best_triple_raises f1 f2 f3 :
  best_triple target target_weights sharpe_w service_w svc_map dflt_svc
    f1 f2 f3 = Raise (KeyError k).
Proof.
  unfold best_triple. destruct grid1_head as [ws Hgrid]. rewrite Hgrid.
  rewrite for_each_cons. cbv beta. rewrite for_each_cons.
  assert (triple_weight_step target target_weights sharpe_w service_w svc_map
            dflt_svc f1 f2 f3 0 0 None = Raise (KeyError k)) as ->; [| done].
  unfold triple_weight_step.
  assert (Num.ltb (Num.round (1 - 0 - 0) 3) (- Num.tol)
          || Num.ltb (1 + Num.tol) (Num.round (1 - 0 - 0) 3) = false) as ->
    by (by vm_compute).
  by rewrite evaluate_raises.
Qed.

Lemma triple_step_cases t acc :
  triple_step target target_weights sharpe_w service_w svc_map dflt_svc
    same_prov_only t acc
  = if eligible_triple same_prov_only t then Raise (KeyError k) else Ret acc.
Proof.
  destruct t as [[f1 f2] f3]. unfold triple_step, eligible_triple.
  cbn [fst snd]. destruct (same_prov_only && _); cbn [negb]; [done |].
  by rewrite best_triple_raises.
Qed.

Lemma search3_raises fs :
  (∃ t, t ∈ combinations3 fs ∧ eligible_triple same_prov_only t = true) →
  search3 target target_weights sharpe_w service_w svc_map dflt_svc
    same_prov_only fs = Raise (KeyError k).
Proof.
  intros (t & Ht & Hel). unfold search3. apply for_each_raises.
  - intros q acc _. rewrite triple_step_cases.
    destruct (eligible_triple same_prov_only q); eauto.
  - exists t. split; [done |]. intros acc.
    by rewrite triple_step_cases, Hel.
Qed.

Lemma search_raises fs n :
  enumerates same_prov_only fs n →
  search target target_weights sharpe_w service_w svc_map dflt_svc
    same_prov_only fs n = Raise (KeyError k).
Proof.
  unfold enumerates, search. destruct (n =? 1)%Z; [apply search1_raises |].
  destruct (n =? 2)%Z; [apply search2_raises | apply search3_raises].
Qed.

End MissingKeys.

(** X3. When the target or the target weights lack one of the four metric
    keys and at least one candidate gets evaluated, [compute] raises
    [KeyError] on a metric key that is missing; the key does not depend on
    the catalog. *)
Theorem compute_missing_key
    (target target_weights : gmap string Qc) (sharpe_w service_w : Qc)
    (svc_map : gmap string Qc) (dflt_svc : Qc) (same_prov_only : bool)
    (fs : list Fund) (n : Z) :
  (n ≤ Z.of_nat (length fs))%Z →
  enumerates same_prov_only fs n →
  ¬ (has_metrics target ∧ has_metrics target_weights) →
  ∃ k, k ∈ metric_keys ∧
       (target !! k = None ∨ target_weights !! k = None) ∧
       compute target target_weights sharpe_w service_w svc_map dflt_svc
         same_prov_only fs n = Raise (KeyError k).
Proof.
  intros Hlen Henum Hnot.
  destruct (deviation_raises target target_weights Hnot) as (k & Hk & Hnone & Hr).
  exists k. split; [done |]. split; [done |].
  unfold compute. apply Z.ltb_ge in Hlen as ->.
  by rewrite (search_raises _ _ sharpe_w service_w svc_map dflt_svc
                same_prov_only k Hr fs n Henum).
Qed.

Lemma compute_missing_key_witness :
  ∃ k, k ∈ metric_keys ∧
       compute ∅ Scenario.equal_weights 0 0 ∅ 0 false [Scenario.fundX] 1
         = Raise (KeyError k).
Proof.
  destruct (compute_missing_key ∅ Scenario.equal_weights 0 0 ∅ 0 false
              [Scenario.fundX] 1) as (k & Hk & _ & Hraise).
  - simpl. lia.
  - unfold enumerates. simpl. discriminate.
  - intros [Ht _]. destruct (Ht "equity") as [x Hx]; [repeat constructor |].
    by rewrite lookup_empty in Hx.
  - exists k. by split.
Defined.

(** ** The pools of the one-fund and of the three-fund search *)

Lemma combinations2_sublist {A} (xs : list A) (x y : A) :
  (x, y) ∈ combinations2 xs → [x; y] `sublist_of` xs.
Proof.
  induction xs as [| z xs IH]; simpl; intros H.
  { by apply elem_of_nil in H. }
  apply elem_of_app in H as [H | H].
  - apply list_elem_of_fmap in H as (y' & [= <- <-] & Hy).
    apply sublist_skip. by apply singleton_sublist_l.
  - apply sublist_cons. by apply IH.
Qed.

Lemma combinations3_sublist {A} (xs : list A) (x y z : A) :
  (x, y, z) ∈ combinations3 xs → [x; y; z] `sublist_of` xs.
Proof.
  induction xs as [| u xs IH]; simpl; intros H.
  { by apply elem_of_nil in H. }
  apply elem_of_app in H as [H | H].
  - apply list_elem_of_fmap in H as ([y' z'] & [= <- <- <-] & Hyz).
    apply sublist_skip. by apply combinations2_sublist.
  - apply sublist_cons. by apply IH.
Qed.



Lemma for_each_row {A B S} (x : A) (ys : list B)
    (body : A → B → S → exc S) (s : S) :
  for_each (y ← ys; [(x, y)]) (λ p, body p.1 p.2) s
  = for_each ys (body x) s.
Proof.
  revert s. induction ys as [| y ys IH]; intros s; [done |].
  simpl. destruct (body x y s); simpl; [apply IH | done].
Qed.

(** Two nested loops are one loop over the pairs. *)
Lemma for_each_nested {A B S} (xs : list A) (ys : list B)
    (body : A → B → S → exc S) (s : S) :
  for_each xs (λ x s0, for_each ys (body x) s0) s
  = for_each (x ← xs; y ← ys; [(x, y)]) (λ p, body p.1 p.2) s.
Proof.
  revert s. induction xs as [| x xs IH]; intros s; [done |].
  rewrite for_each_cons. simpl. rewrite for_each_app, for_each_row.
  destruct (for_each ys (body x) s) as [s1 | e]; simpl; [apply IH | done].
Qed.

Lemma for_each_ext {A S} (xs : list A) (f g : A → S → exc S) (s : S) :
  (∀ x s0, f x s0 = g x s0) → for_each xs f s = for_each xs g s.
Proof.
  intros Hfg. revert s. induction xs as [| x xs IH]; intros s; [done |].
  simpl. rewrite Hfg. destruct (g x s); simpl; [apply IH | done].
Qed.

(** A loop that leaves its variables alone on some elements is the loop
    over the other elements. *)
Lemma for_each_skip {A S} (skip : A → bool) (xs : list A)
    (body : A → S → exc S) (s : S) :
  for_each xs (λ x s0, if skip x then Ret s0 else body x s0) s
  = for_each (filter (λ x, skip x = false) xs) body s.
Proof.
  revert s. induction xs as [| x xs IH]; intros s; [done |].
  rewrite for_each_cons. destruct (skip x) eqn:E.
  - rewrite filter_cons_False by (by rewrite E). simpl. apply IH.
  - rewrite filter_cons_True by done. rewrite for_each_cons.
    destruct (body x s); simpl; [apply IH | done].
Qed.

Lemma simplex_nonempty : simplex ≠ [].
Proof. apply (bool_decide_unpack _). vm_compute. exact I. Qed.


Section TriplePool.

Variables (target target_weights : gmap string Qc).
Variables (sharpe_w service_w : Qc).
Variables (svc_map : gmap string Qc) (dflt_svc : Qc).
Variable same_prov_only : bool.

Let ev := simplex_eval target target_weights sharpe_w service_w svc_map dflt_svc.
Let step := triple_step target target_weights sharpe_w service_w svc_map
              dflt_svc same_prov_only.

(** The two nested loops over the grid keep the best candidate of the
    simplex. *)
Lemma best_triple_simplex f1 f2 f3 :
  best_triple target target_weights sharpe_w service_w svc_map dflt_svc
    f1 f2 f3
  = for_each simplex (min_step (ev (f1, f2, f3))) None.
Proof.
  unfold best_triple.
  rewrite (for_each_nested grid1 grid1
             (triple_weight_step target target_weights sharpe_w service_w
                svc_map dflt_svc f1 f2 f3)).
  unfold simplex. rewrite <- for_each_skip. fold grid_pairs.
  apply for_each_ext. intros [w1 w2] best.
  unfold triple_weight_step, skipped, third_weight, min_step, ev,
    simplex_eval, triple_eval, clamp, third_weight.
  cbn [fst snd]. destruct (_ || _); reflexivity.
Qed.

(** Every triple gets the least candidate of its simplex. *)
Lemma best_triple_least f1 f2 f3 best :
  best_triple target target_weights sharpe_w service_w svc_map dflt_svc
    f1 f2 f3 = Ret best →
  ∃ b, best = Some b ∧ least_of (ev (f1, f2, f3)) simplex b.
Proof.
  rewrite best_triple_simplex. intros H.
  apply (min_loop_least (ev (f1, f2, f3)) simplex best simplex_nonempty H).
Qed.

Lemma triples_loop ts acc pool :
  for_each ts step acc = Ret pool →
  ∃ new, pool = acc ++ new ∧
    Forall2 (λ t c, least_of (ev t) simplex c)
            (filter (λ t, eligible_triple same_prov_only t = true) ts) new.
Proof.
  revert acc. induction ts as [| [[f1 f2] f3] ts IH]; intros acc H.
  { injection H as <-. exists []. split; [by rewrite app_nil_r | constructor]. }
  rewrite for_each_cons in H.
  apply bind_Ret in H as (acc' & Hstep & Hrest).
  destruct (IH _ Hrest) as (new & -> & Hnew).
  unfold step, triple_step in Hstep.
  destruct (eligible_triple same_prov_only (f1, f2, f3)) eqn:E.
  - rewrite filter_cons_True by done.
    unfold eligible_triple in E. cbn [fst snd] in E.
    apply negb_true_iff in E. rewrite E in Hstep.
    apply bind_Ret in Hstep as (best & Hbest & Hacc).
    destruct (best_triple_least _ _ _ _ Hbest) as (b & -> & Hb).
    injection Hacc as <-.
    exists (b :: new). split; [by rewrite <- app_assoc | by constructor].
  - rewrite filter_cons_False by (by rewrite E).
    unfold eligible_triple in E. cbn [fst snd] in E.
    apply negb_false_iff in E.
    rewrite E in Hstep. injection Hstep as <-. by exists new.
Qed.

End TriplePool.

Lemma blend_single_lookup (f : Fund) :
  _blend [f] [1] !! "equity" = Some (equity f) ∧
  _blend [f] [1] !! "abroad" = Some (abroad f) ∧
  _blend [f] [1] !! "fx" = Some (fx f) ∧
  _blend [f] [1] !! "illiquid" = Some (illiquid f) ∧
  _blend [f] [1] !! "sharpe" = Some (sharpe f).
Proof.
  destruct (blend_lookup [f] [1]) as (H1 & H2 & H3 & H4 & H5).
  simpl in *. rewrite !sum_singleton in *.
  rewrite H1, H2, H3, H4, H5.
  repeat split; f_equal; ring.
Qed.

Section SinglePool.

Variables (target target_weights : gmap string Qc).
Variables (sharpe_w service_w : Qc).
Variables (svc_map : gmap string Qc) (dflt_svc : Qc).

Let step := single_step target target_weights sharpe_w service_w svc_map
              dflt_svc.

Lemma singles_loop fs acc pool :
  for_each fs step acc = Ret pool →
  ∃ new, pool = acc ++ new ∧
    Forall2 (λ f c, evaluate target target_weights sharpe_w service_w [f] [1]
                      (dict_get svc_map (provider f) dflt_svc) = Ret c)
            fs new.
Proof.
  revert acc. induction fs as [| f fs IH]; intros acc H.
  { injection H as <-. exists []. split; [by rewrite app_nil_r | constructor]. }
  rewrite for_each_cons in H.
  apply bind_Ret in H as (acc' & Hstep & Hrest).
  destruct (IH _ Hrest) as (new & -> & Hnew).
  unfold step, single_step in Hstep.
  apply bind_Ret in Hstep as (c & Hc & [= <-]).
  exists (c :: new). split; [by rewrite <- app_assoc | by constructor].
Qed.

End SinglePool.

(** X1. With [n = 1] the pool has one candidate per fund of the catalog,
    in catalog order: the fund alone at weight 1, with the fund's own
    exposures and sharpe as its profile, the service score of the fund's
    provider (or the default) and the score computed from these. *)
Theorem search1_pool
    (target target_weights : gmap string Qc) (sharpe_w service_w : Qc)
    (svc_map : gmap string Qc) (dflt_svc : Qc) (same_prov_only : bool)
    (fs : list Fund) (pool : list Candidate) :
  search target target_weights sharpe_w service_w svc_map dflt_svc
    same_prov_only fs 1 = Ret pool →
  length pool = length fs ∧
  Forall2 (λ f c,
      funds c = [f] ∧ weights c = [1] ∧
      vals c !! "equity" = Some (equity f) ∧
      vals c !! "abroad" = Some (abroad f) ∧
      vals c !! "fx" = Some (fx f) ∧
      vals c !! "illiquid" = Some (illiquid f) ∧
      vals c !! "sharpe" = Some (sharpe f) ∧
      svc c = dict_get svc_map (provider f) dflt_svc ∧
      score c = _score (deviation c) (sharpe f) (svc c) sharpe_w service_w)
    fs pool.
Proof.
  intros H. change (search1 target target_weights sharpe_w service_w svc_map
                      dflt_svc fs = Ret pool) in H.
  destruct (singles_loop _ _ _ _ _ _ _ _ _ H) as (new & -> & Hall).
  rewrite app_nil_l. split; [symmetry; by eapply Forall2_length |].
  eapply Forall2_impl; [exact Hall |]. intros f c Hc. simpl in Hc.
  apply evaluate_inv in Hc as (dev & sh & _ & Hsh & ->). simpl.
  destruct (blend_single_lookup f) as (H1 & H2 & H3 & H4 & H5).
  unfold getitem in Hsh. rewrite H5 in Hsh. injection Hsh as <-.
  by repeat split.
Qed.

Lemma search1_pool_witness :
  length (Scenario.pool Scenario.catalog 1) = 3%nat ∧
  (funds <$> Scenario.pool Scenario.catalog 1)
    = [[Scenario.fundX]; [Scenario.fundY]; [Scenario.fundZ]].
Proof.
  destruct (search1_pool Scenario.target Scenario.equal_weights 0 0 ∅
              (Num.of_Z 70) false Scenario.catalog
              (Scenario.pool Scenario.catalog 1)) as [Hlen Hall].
  { vm_compute. reflexivity. }
  split; [exact Hlen |].
  destruct (Scenario.pool Scenario.catalog 1) as [| c1 [| c2 [| c3 [| c4 l]]]];
    try discriminate Hlen.
  apply Forall2_cons in Hall as [(E1 & _) Hall].
  apply Forall2_cons in Hall as [(E2 & _) Hall].
  apply Forall2_cons in Hall as [(E3 & _) Hall].
  cbn [fmap list_fmap]. rewrite E1, E2, E3.
  reflexivity.
Defined.



(** ** Nothing passes the filter *)

Lemma for_each_noop {A S} (xs : list A) (body : A → S → exc S) (s : S) :
  (∀ x s0, x ∈ xs → body x s0 = Ret s0) → for_each xs body s = Ret s.
Proof.
  induction xs as [| x xs IH]; intros Hbody; [done |].
  rewrite for_each_cons, Hbody by left. simpl.
  apply IH. intros y s0 Hy. apply Hbody. by right.
Qed.

Lemma search_nothing_eligible
    (target target_weights : gmap string Qc) (sharpe_w service_w : Qc)
    (svc_map : gmap string Qc) (dflt_svc : Qc) (same_prov_only : bool)
    (fs : list Fund) (n : Z) :
  ¬ enumerates same_prov_only fs n →
  search target target_weights sharpe_w service_w svc_map dflt_svc
    same_prov_only fs n = Ret [].
Proof.
  unfold enumerates, search. destruct (n =? 1)%Z.
  { intros H. destruct fs; [done | by destruct H]. }
  destruct (n =? 2)%Z; intros Hnone; apply for_each_noop.
  - intros [f1 f2] acc Hp. unfold pair_step.
    destruct (same_prov_only && bool_decide (provider f1 ≠ provider f2))
      eqn:E; [done |].
    destruct Hnone. exists (f1, f2). split; [done |].
    unfold eligible_pair. cbn [fst snd]. by rewrite E.
  - intros [[f1 f2] f3] acc Ht. unfold triple_step.
    destruct (same_prov_only
              && negb (bool_decide (provider f1 = provider f2)
                       && bool_decide (provider f2 = provider f3)))
      eqn:E; [done |].
    destruct Hnone. exists (f1, f2, f3). split; [done |].
    unfold eligible_triple. cbn [fst snd]. by rewrite E.
Qed.

Lemma distinct_providers_not_enumerated (fs : list Fund) (n : Z) :
  n ≠ 1%Z → NoDup (provider <$> fs) → ¬ enumerates true fs n.
Proof.
  intros Hn Hnodup. unfold enumerates.
  apply Z.eqb_neq in Hn as ->. destruct (n =? 2)%Z.
  - intros ([f1 f2] & Hin & Hel).
    apply combinations2_sublist in Hin.
    apply (fmap_sublist provider) in Hin.
    pose proof (sublist_NoDup _ _ Hnodup Hin) as Hnd. simpl in Hnd.
    apply NoDup_cons in Hnd as [Hne _].
    unfold eligible_pair in Hel. cbn [fst snd andb] in Hel.
    apply negb_true_iff, bool_decide_eq_false in Hel.
    apply Hel. intros Heq. apply Hne. rewrite Heq. left.
  - intros ([[f1 f2] f3] & Hin & Hel).
    apply combinations3_sublist in Hin.
    apply (fmap_sublist provider) in Hin.
    pose proof (sublist_NoDup _ _ Hnodup Hin) as Hnd. simpl in Hnd.
    apply NoDup_cons in Hnd as [Hne _].
    unfold eligible_triple in Hel. cbn [fst snd andb] in Hel.
    rewrite negb_involutive in Hel.
    apply andb_true_iff in Hel as [Hel _].
    apply bool_decide_eq_true in Hel. apply Hne. rewrite Hel. left.
Qed.

(** X4. When the catalog is large enough but no subset of funds passes the
    same-provider filter, [compute] returns the empty list with the
    no-combination message, whatever the target dicts hold. This is the
    case when [same_prov_only] is set, [n] is not 1 and no two funds of the
    catalog have the same provider. *)
Theorem compute_no_combination
    (target target_weights : gmap string Qc) (sharpe_w service_w : Qc)
    (svc_map : gmap string Qc) (dflt_svc : Qc) (same_prov_only : bool)
    (fs : list Fund) (n : Z) :
  (n ≤ Z.of_nat (length fs))%Z →
  ¬ enumerates same_prov_only fs n ∨
  (same_prov_only = true ∧ n ≠ 1%Z ∧ NoDup (provider <$> fs)) →
  compute target target_weights sharpe_w service_w svc_map dflt_svc
    same_prov_only fs n = Ret ([], msg_no_combination).
Proof.
  intros Hlen Hnone.
  assert (¬ enumerates same_prov_only fs n) as Hnot.
  { destruct Hnone as [H | (-> & Hn & Hnd)]; [done |].
    by apply distinct_providers_not_enumerated. }
  unfold compute. apply Z.ltb_ge in Hlen as ->.
  by rewrite search_nothing_eligible.
Qed.

Lemma compute_no_combination_witness :
  compute ∅ ∅ 0 0 ∅ 0 true Scenario.catalog 2 = Ret ([], msg_no_combination).
Proof.
  apply compute_no_combination.
  - simpl. lia.
  - right. split; [reflexivity |]. split; [lia |].
    apply (bool_decide_unpack _). vm_compute. exact I.
Defined.

(** ** Where the candidates come from *)

Lemma Forall2_elem_of_r {A B} (R : A → B → Prop) (l : list A) (k : list B) y :
  Forall2 R l k → y ∈ k → ∃ x, x ∈ l ∧ R x y.
Proof.
  induction 1 as [| x y' l k Hxy Hlk IH]; intros Hy.
  - by apply elem_of_nil in Hy.
  - apply elem_of_cons in Hy as [-> | Hy].
    + exists x. split; [left | done].
    + destruct (IH Hy) as (x' & Hx' & HR). exists x'. split; [by right | done].
Qed.

Lemma search_origin
    (target target_weights : gmap string Qc) (sharpe_w service_w : Qc)
    (svc_map : gmap string Qc) (dflt_svc : Qc) (same_prov_only : bool)
    (fs : list Fund) (n : Z) (pool : list Candidate) :
  search target target_weights sharpe_w service_w svc_map dflt_svc
    same_prov_only fs n = Ret pool →
  ∀ c, c ∈ pool →
    origin target target_weights sharpe_w service_w svc_map dflt_svc
      same_prov_only fs n c.
Proof.
  unfold search, origin. intros H c Hc. destruct (n =? 1)%Z.
  { destruct (singles_loop _ _ _ _ _ _ _ _ _ H) as (new & -> & Hall).
    rewrite app_nil_l in Hc.
    destruct (Forall2_elem_of_r _ _ _ _ Hall Hc) as (f & Hf & Hev). eauto. }
  destruct (n =? 2)%Z.
  - destruct (pairs_loop _ _ _ _ _ _ _ _ _ _ H) as (new & -> & Hall).
    rewrite app_nil_l in Hc.
    destruct (Forall2_elem_of_r _ _ _ _ Hall Hc) as (p & Hp & [(w & Hw & Hev) _]).
    apply list_elem_of_filter in Hp as [Hel Hp]. exists p, w. eauto.
  - destruct (triples_loop _ _ _ _ _ _ _ _ _ _ H) as (new & -> & Hall).
    rewrite app_nil_l in Hc.
    destruct (Forall2_elem_of_r _ _ _ _ Hall Hc) as (t & Ht & [(w & Hw & Hev) _]).
    apply list_elem_of_filter in Ht as [Hel Ht]. exists t, w. eauto.
Qed.

(** ** The order of the returned list *)

Close Scope Qc_scope.

Lemma strict_pass_sublist spo cands st :
  ∃ l, chosen (strict_pass spo cands st) = chosen st ++ l ∧
       l `sublist_of` cands.
Proof.
  revert st. induction cands as [| c rest IH]; intros st; simpl.
  { exists []. split; [by rewrite app_nil_r | done]. }
  destruct (truthy (used_names st ∩ names_set c)).
  { destruct (IH st) as (l & -> & Hl). exists l. split; [done |].
    by apply sublist_cons. }
  destruct (negb spo && truthy (used_prov st ∩ prov_set c)).
  { destruct (IH st) as (l & -> & Hl). exists l. split; [done |].
    by apply sublist_cons. }
  simpl. destruct (length (chosen st ++ [c]) =? 3)%nat; simpl.
  - exists [c]. split; [done |]. apply sublist_skip, sublist_nil_l.
  - match goal with |- context [strict_pass spo rest ?s] =>
      destruct (IH s) as (l & -> & Hl) end.
    simpl. exists (c :: l). split; [by rewrite <- app_assoc |].
    by apply sublist_skip.
Qed.

Lemma relaxed_pass_sublist cands st :
  ∃ l, chosen (relaxed_pass cands st) = chosen st ++ l ∧
       l `sublist_of` cands.
Proof.
  revert st. induction cands as [| c rest IH]; intros st; simpl.
  { exists []. split; [by rewrite app_nil_r | done]. }
  destruct (bool_decide (c ∈ chosen st)).
  { destruct (IH st) as (l & -> & Hl). exists l. split; [done |].
    by apply sublist_cons. }
  destruct (truthy (used_names st ∩ names_set c)).
  { destruct (IH st) as (l & -> & Hl). exists l. split; [done |].
    by apply sublist_cons. }
  simpl. destruct (length (chosen st ++ [c]) =? 3)%nat; simpl.
  - exists [c]. split; [done |]. apply sublist_skip, sublist_nil_l.
  - match goal with |- context [relaxed_pass rest ?s] =>
      destruct (IH s) as (l & -> & Hl) end.
    simpl. exists (c :: l). split; [by rewrite <- app_assoc |].
    by apply sublist_skip.
Qed.

Lemma strict_pass_names_mono spo cands st :
  used_names st ⊆ used_names (strict_pass spo cands st).
Proof.
  revert st. induction cands as [| c rest IH]; intros st; simpl; [done |].
  destruct (truthy (used_names st ∩ names_set c)); [apply IH |].
  destruct (negb spo && truthy (used_prov st ∩ prov_set c)); [apply IH |].
  simpl. destruct (length (chosen st ++ [c]) =? 3)%nat; simpl.
  - set_solver.
  - etrans; [| apply IH]. simpl. set_solver.
Qed.

(** With [same_prov_only] set, a first loop that ends with fewer than three
    candidates has left out only candidates that share a fund name with a
    chosen one. *)
Lemma strict_pass_exhausts cands st c :
  length (chosen (strict_pass true cands st)) < 3 →
  c ∈ cands →
  c ∈ chosen (strict_pass true cands st) ∨
  truthy (used_names (strict_pass true cands st) ∩ names_set c) = true.
Proof.
  revert st. induction cands as [| d rest IH]; intros st Hlen Hc.
  { by apply elem_of_nil in Hc. }
  simpl in *.
  destruct (truthy (used_names st ∩ names_set d)) eqn:Hn.
  { apply elem_of_cons in Hc as [-> | Hc]; [| by apply IH].
    right. apply truthy_inter_true in Hn. apply truthy_inter_true.
    pose proof (strict_pass_names_mono true rest st). set_solver. }
  destruct (length (chosen st ++ [d]) =? 3)%nat eqn:E.
  { apply Nat.eqb_eq in E. simpl in Hlen. lia. }
  apply elem_of_cons in Hc as [-> | Hc]; [| by apply IH].
  left. match goal with |- context [strict_pass true rest ?s] =>
    destruct (strict_pass_prefix true rest s) as [k ->] end.
  simpl. set_solver.
Qed.

Lemma relaxed_pass_noop cands st :
  (∀ c, c ∈ cands →
     c ∈ chosen st ∨ truthy (used_names st ∩ names_set c) = true) →
  relaxed_pass cands st = st.
Proof.
  induction cands as [| c rest IH]; intros Hall; simpl; [done |].
  destruct (Hall c) as [Hin | Hn]; [left | |].
  - rewrite bool_decide_eq_true_2 by done.
    apply IH. intros d Hd. apply Hall. by right.
  - rewrite Hn. destruct (bool_decide (c ∈ chosen st));
      apply IH; intros d Hd; apply Hall; by right.
Qed.

(** The selection is the picks of the first loop followed by the picks of
    the second loop, each in the order of the pool; with [same_prov_only]
    set the second loop adds nothing. *)
Lemma select_two_runs (spo : bool) (cands : list Candidate) :
  ∃ l1 l2,
    select spo cands = l1 ++ l2 ∧
    l1 `sublist_of` cands ∧ l2 `sublist_of` cands ∧
    (l2 ≠ [] → length l1 < 3) ∧
    (spo = true → l2 = [] ∧ select spo cands `sublist_of` cands).
Proof.
  rewrite select_chosen. unfold run_passes.
  destruct (strict_pass_sublist spo cands (mkSelection [] ∅ ∅))
    as (l1 & H1 & Hl1). simpl in H1.
  destruct (length (chosen (strict_pass spo cands (mkSelection [] ∅ ∅))) <? 3)
    eqn:E.
  - apply Nat.ltb_lt in E.
    destruct (relaxed_pass_sublist cands
                (strict_pass spo cands (mkSelection [] ∅ ∅)))
      as (l2 & H2 & Hl2).
    destruct spo.
    + rewrite relaxed_pass_noop.
      2: { intros c Hc. by apply strict_pass_exhausts. }
      exists l1, []. rewrite app_nil_r.
      split; [exact H1 |]. split; [exact Hl1 |].
      split; [apply sublist_nil_l |].
      split; [done |]. intros _. split; [done | by rewrite H1].
    + exists l1, l2. rewrite H2, H1.
      split; [done |]. split; [exact Hl1 |]. split; [exact Hl2 |].
      split; [| done]. intros _. by rewrite <- H1.
  - exists l1, []. rewrite app_nil_r.
    split; [exact H1 |]. split; [exact Hl1 |].
    split; [apply sublist_nil_l |].
    split; [done |]. intros _. split; [done | by rewrite H1].
Qed.

Lemma select_elem_of spo cands c : c ∈ select spo cands → c ∈ cands.
Proof.
  destruct (select_two_runs spo cands) as (l1 & l2 & -> & H1 & H2 & _).
  intros Hc. apply elem_of_app in Hc as [Hc | Hc];
    by eapply elem_of_sublist.
Qed.

Lemma StronglySorted_sublist {A} (R : relation A) (l k : list A) :
  l `sublist_of` k → StronglySorted R k → StronglySorted R l.
Proof.
  induction 1 as [| x l k Hlk IH | x l k Hlk IH]; intros Hs.
  - constructor.
  - apply StronglySorted_inv in Hs as [Hk Hx]. constructor; [by apply IH |].
    apply Forall_forall. intros y Hy.
    eapply Forall_forall in Hx; [exact Hx |]. by eapply elem_of_sublist.
  - apply StronglySorted_inv in Hs as [Hk _]. by apply IH.
Qed.

(** The picks of the second loop are candidates the first loop left out, in
    the order of the pool. *)
Lemma relaxed_pass_fresh cands st :
  ∃ l, chosen (relaxed_pass cands st) = chosen st ++ l ∧
       l `sublist_of` cands ∧ ∀ c, c ∈ l → c ∉ chosen st.
Proof.
  revert st. induction cands as [| c rest IH]; intros st; simpl.
  { exists []. split; [by rewrite app_nil_r |]. split; [done |].
    intros c Hc. by apply elem_of_nil in Hc. }
  destruct (bool_decide (c ∈ chosen st)) eqn:Hin.
  { destruct (IH st) as (l & -> & Hl & Hfresh). exists l.
    split; [done |]. split; [by apply sublist_cons | done]. }
  destruct (truthy (used_names st ∩ names_set c)).
  { destruct (IH st) as (l & -> & Hl & Hfresh). exists l.
    split; [done |]. split; [by apply sublist_cons | done]. }
  apply bool_decide_eq_false in Hin.
  simpl. destruct (length (chosen st ++ [c]) =? 3)%nat; simpl.
  - exists [c]. split; [done |].
    split; [apply sublist_skip, sublist_nil_l |].
    intros d Hd. apply list_elem_of_singleton in Hd. by subst.
  - match goal with |- context [relaxed_pass rest ?s] =>
      destruct (IH s) as (l & -> & Hl & Hfresh) end.
    simpl in *. exists (c :: l). split; [by rewrite <- app_assoc |].
    split; [by apply sublist_skip |].
    intros d Hd. apply elem_of_cons in Hd as [-> | Hd]; [done |].
    intros Hd'. apply (Hfresh d Hd). apply elem_of_app. by left.
Qed.

(** The selection starts with the picks of the first loop; what follows are
    the picks of the second loop. *)
Lemma select_first_picks spo cands :
  ∃ l2,
    select spo cands = first_picks spo cands ++ l2 ∧
    first_picks spo cands `sublist_of` cands ∧
    l2 `sublist_of` cands ∧
    (∀ c, c ∈ l2 → c ∉ first_picks spo cands) ∧
    (l2 ≠ [] → length (first_picks spo cands) < 3) ∧
    (spo = true → l2 = []).
Proof.
  rewrite select_chosen. unfold run_passes, first_picks.
  destruct (strict_pass_sublist spo cands (mkSelection [] ∅ ∅))
    as (l1 & H1 & Hl1). simpl in H1.
  destruct (length (chosen (strict_pass spo cands (mkSelection [] ∅ ∅))) <? 3)
    eqn:E.
  - apply Nat.ltb_lt in E.
    destruct (relaxed_pass_fresh cands
                (strict_pass spo cands (mkSelection [] ∅ ∅)))
      as (l2 & H2 & Hl2 & Hfresh).
    destruct spo.
    + rewrite relaxed_pass_noop.
      2: { intros c Hc. by apply strict_pass_exhausts. }
      exists []. rewrite app_nil_r. split; [done |].
      split; [by rewrite H1 |]. split; [apply sublist_nil_l |].
      split; [intros c Hc; by apply elem_of_nil in Hc |]. by split.
    + exists l2. split; [exact H2 |]. split; [by rewrite H1 |].
      split; [exact Hl2 |]. split; [exact Hfresh |]. by split.
  - exists []. rewrite app_nil_r. split; [done |].
    split; [by rewrite H1 |]. split; [apply sublist_nil_l |].
    split; [intros c Hc; by apply elem_of_nil in Hc |]. by split.
Qed.

(** X5. A non-empty list returned by [compute] is the picks of the first
    selection loop on the sorted pool, followed by the picks of the second
    loop, which the first loop had left out. Each of the two runs is in the
    order of the sorted pool, hence in ascending order of score, and the
    second run is empty unless the first has fewer than three candidates.
    With [same_prov_only] set the second loop adds nothing, so the whole
    list is in ascending order of score. *)
Theorem compute_ranking
    (target target_weights : gmap string Qc) (sharpe_w service_w : Qc)
    (svc_map : gmap string Qc) (dflt_svc : Qc) (same_prov_only : bool)
    (fs : list Fund) (n : Z) (cs : list Candidate) (msg : string) :
  compute target target_weights sharpe_w service_w svc_map dflt_svc
    same_prov_only fs n = Ret (cs, msg) →
  cs ≠ [] →
  ∃ pool l2,
    search target target_weights sharpe_w service_w svc_map dflt_svc
      same_prov_only fs n = Ret pool ∧
    cs = first_picks same_prov_only (sort_by_score pool) ++ l2 ∧
    first_picks same_prov_only (sort_by_score pool)
      `sublist_of` sort_by_score pool ∧
    l2 `sublist_of` sort_by_score pool ∧
    (∀ c, c ∈ l2 → c ∉ first_picks same_prov_only (sort_by_score pool)) ∧
    StronglySorted (λ a b, (score a ≤ score b)%Qc)
      (first_picks same_prov_only (sort_by_score pool)) ∧
    StronglySorted (λ a b, (score a ≤ score b)%Qc) l2 ∧
    (l2 ≠ [] →
     length (first_picks same_prov_only (sort_by_score pool)) < 3) ∧
    (same_prov_only = true →
     l2 = [] ∧ StronglySorted (λ a b, (score a ≤ score b)%Qc) cs).
Proof.
  intros H Hne.
  assert (∃ pool,
            search target target_weights sharpe_w service_w svc_map dflt_svc
              same_prov_only fs n = Ret pool ∧
            cs = select same_prov_only (sort_by_score pool))
    as (pool & Hsearch & ->).
  { unfold compute in H. destruct (_ <? n)%Z.
    { by injection H as <- _. }
    destruct (search target target_weights sharpe_w service_w svc_map
                dflt_svc same_prov_only fs n) as [pool | e]; [| done].
    simpl in H. destruct pool as [| p pool'].
    { by injection H as <- _. }
    exists (p :: pool'). split; [done |]. by injection H as <- _. }
  pose proof (sort_by_score_sorted pool) as Hsorted.
  destruct (select_first_picks same_prov_only (sort_by_score pool))
    as (l2 & Heq & H1 & H2 & Hfresh & Hlen & Hspo).
  exists pool, l2. split; [done |]. split; [exact Heq |].
  split; [exact H1 |]. split; [exact H2 |]. split; [exact Hfresh |].
  split; [by eapply StronglySorted_sublist |].
  split; [by eapply StronglySorted_sublist |].
  split; [exact Hlen |]. intros Htrue. pose proof (Hspo Htrue) as Hnil.
  split; [exact Hnil |]. rewrite Heq, Hnil, app_nil_r.
  by eapply StronglySorted_sublist.
Qed.

Lemma compute_ranking_witness :
  ∃ l2,
    Scenario.returned (Scenario.run Scenario.catalog 1)
      = first_picks false (Scenario.sorted_pool Scenario.catalog 1) ++ l2 ∧
    StronglySorted (λ a b, (score a ≤ score b)%Qc)
      (first_picks false (Scenario.sorted_pool Scenario.catalog 1)) ∧
    StronglySorted (λ a b, (score a ≤ score b)%Qc) l2.
Proof.
  destruct (compute_ranking Scenario.target Scenario.equal_weights 0%Qc 0%Qc
              ∅ (Num.of_Z 70) false Scenario.catalog 1
              (Scenario.returned (Scenario.run Scenario.catalog 1)) "")
    as (pool & l2 & Hsearch & Heq & _ & _ & _ & H1 & H2 & _).
  - vm_compute. reflexivity.
  - vm_compute. discriminate.
  - assert (pool = Scenario.pool Scenario.catalog 1) as ->.
    { unfold Scenario.pool. by rewrite Hsearch. }
    exists l2. by repeat split.
Defined.

(** ** Providers across the alternatives *)

Lemma provs_of_snoc l c : provs_of (l ++ [c]) = provs_of l ∪ prov_set c.
Proof. induction l as [| d l IH]; simpl; [| rewrite IH]; set_solver. Qed.

Lemma provs_of_elem l c : c ∈ l → prov_set c ⊆ provs_of l.
Proof.
  induction l as [| d l IH]; simpl; intros Hc.
  - by apply elem_of_nil in Hc.
  - apply elem_of_cons in Hc as [-> | Hc]; [| specialize (IH Hc)]; set_solver.
Qed.

Lemma provs_apart_snoc l c :
  provs_apart l → provs_of l ## prov_set c → provs_apart (l ++ [c]).
Proof.
  induction l as [| d l IH]; simpl.
  - intros _ _. split; [set_solver | done].
  - intros [Hd Hl] Hc. split.
    + rewrite provs_of_snoc. set_solver.
    + apply IH; [done | set_solver].
Qed.

Lemma provs_apart_lookup l i j ci cj :
  provs_apart l → i ≠ j → l !! i = Some ci → l !! j = Some cj →
  prov_set ci ## prov_set cj.
Proof.
  revert i j. induction l as [| d l IH]; intros i j Hl Hij Hi Hj; [done |].
  destruct Hl as [Hd Hl].
  destruct i as [| i], j as [| j]; simpl in *; simplify_eq.
  - apply list_elem_of_lookup_2, provs_of_elem in Hj. set_solver.
  - apply list_elem_of_lookup_2, provs_of_elem in Hi. set_solver.
  - apply (IH i j); [done | lia | done | done].
Qed.

Lemma strict_pass_provs cands st :
  used_prov st = provs_of (chosen st) → provs_apart (chosen st) →
  provs_apart (chosen (strict_pass false cands st)).
Proof.
  revert st. induction cands as [| c rest IH]; intros st Hu Ha; simpl; [done |].
  destruct (truthy (used_names st ∩ names_set c)); [by apply IH |].
  simpl. destruct (truthy (used_prov st ∩ prov_set c)) eqn:Hp; [by apply IH |].
  apply truthy_inter_false in Hp.
  assert (provs_apart (chosen st ++ [c])) as Ha'
    by (apply provs_apart_snoc; [done | by rewrite <- Hu]).
  destruct (length (chosen st ++ [c]) =? 3)%nat; [done |].
  apply IH; simpl; [by rewrite provs_of_snoc, Hu | done].
Qed.

(** X6. Without [same_prov_only], the candidates the first selection loop
    picks, which open the returned list, have pairwise different
    providers: no provider of one is a provider of another. When that loop
    fills the three places they are the whole returned list, so the three
    alternatives returned come from different providers. *)
Theorem select_provider_diversity (cands : list Candidate) :
  first_picks false cands `prefix_of` select false cands ∧
  (∀ i j ci cj f g,
     i ≠ j →
     first_picks false cands !! i = Some ci →
     first_picks false cands !! j = Some cj →
     f ∈ funds ci → g ∈ funds cj → provider f ≠ provider g) ∧
  (length (first_picks false cands) = 3 →
   select false cands = first_picks false cands ∧
   ∀ i j ci cj f g,
     i ≠ j →
     select false cands !! i = Some ci →
     select false cands !! j = Some cj →
     f ∈ funds ci → g ∈ funds cj → provider f ≠ provider g).
Proof.
  assert (provs_apart (first_picks false cands)) as Hapart
    by (by apply strict_pass_provs).
  assert (∀ i j ci cj f g,
            i ≠ j →
            first_picks false cands !! i = Some ci →
            first_picks false cands !! j = Some cj →
            f ∈ funds ci → g ∈ funds cj → provider f ≠ provider g) as Hdiv.
  { intros i j ci cj f g Hij Hi Hj Hf Hg Heq.
    pose proof (provs_apart_lookup _ i j ci cj Hapart Hij Hi Hj) as Hdisj.
    apply (Hdisj (provider f)); unfold prov_set; apply elem_of_list_to_set.
    - by apply list_elem_of_fmap_2.
    - rewrite Heq. by apply list_elem_of_fmap_2. }
  destruct (select_first_picks false cands)
    as (l2 & Heq & _ & _ & _ & Hlen & _).
  split; [rewrite Heq; by apply prefix_app_r |]. split; [exact Hdiv |].
  intros Hfull.
  assert (l2 = []) as ->.
  { destruct l2 as [| c l2]; [done |].
    assert (length (first_picks false cands) < 3) by (by apply Hlen). lia. }
  rewrite app_nil_r in Heq. split; [exact Heq |]. by rewrite Heq.
Qed.

Lemma select_provider_diversity_witness :
  ∃ ci cj,
    select false (Scenario.sorted_pool Scenario.catalog 1) !! 0 = Some ci ∧
    select false (Scenario.sorted_pool Scenario.catalog 1) !! 1 = Some cj ∧
    funds ci = [Scenario.fundX] ∧ funds cj = [Scenario.fundY] ∧
    provider Scenario.fundX ≠ provider Scenario.fundY.
Proof.
  destruct (select_provider_diversity (Scenario.sorted_pool Scenario.catalog 1))
    as (_ & _ & Hfull).
  destruct Hfull as [_ Hdiv]; [vm_compute; reflexivity |].
  eexists _, _.
  split; [vm_compute; reflexivity |].
  split; [vm_compute; reflexivity |].
  split; [reflexivity |]. split; [reflexivity |].
  eapply (Hdiv 0 1).
  - lia.
  - vm_compute; reflexivity.
  - vm_compute; reflexivity.
  - simpl. left.
  - simpl. left.
Defined.

(** ** What every returned candidate satisfies *)

Open Scope Qc_scope.

Lemma getitem_Ret {V} (d : gmap string V) k v :
  getitem d k = Ret v → d !! k = Some v.
Proof. unfold getitem. destruct (d !! k); [by intros [= ->] | done]. Qed.

Lemma grid_bounds :
  Forall (λ w, (0 ≤ w ∧ w ≤ 1) ∧ (0 ≤ 1 - w ∧ 1 - w ≤ 1)) grid.
Proof. apply (bool_decide_unpack _). vm_compute. exact I. Qed.

Lemma simplex_bounds :
  Forall (λ w : Qc * Qc, (0 ≤ w.1 ∧ w.1 ≤ 1) ∧ (0 ≤ w.2 ∧ w.2 ≤ 1)) simplex.
Proof. apply (bool_decide_unpack _). vm_compute. exact I. Qed.

Lemma one_bounds : 0 ≤ 1 ∧ 1 ≤ 1.
Proof. split; by vm_compute. Qed.

Lemma evaluate_well_formed t tw sw svw smap dflt fs fs0 ws c :
  evaluate t tw sw svw fs0 ws (_svc (provider <$> fs0) ws smap dflt) = Ret c →
  fs0 `sublist_of` fs →
  length ws = length fs0 →
  Forall (λ w, 0 ≤ w ∧ w ≤ 1) ws →
  well_formed t tw sw svw smap dflt fs (length fs0) c.
Proof.
  intros Hev Hsub Hlen Hws.
  apply evaluate_inv in Hev as (dev & sh & Hdev & Hsh & ->).
  unfold well_formed. simpl.
  split; [done |]. split; [done |]. split; [done |]. split; [done |].
  split; [done |]. split; [done |]. split; [done |].
  exists sh. split; [by apply getitem_Ret | done].
Qed.

Lemma origin_well_formed t tw sw svw smap dflt spo fs n c :
  origin t tw sw svw smap dflt spo fs n c →
  well_formed t tw sw svw smap dflt fs (blend_size n) c.
Proof.
  unfold origin, blend_size. destruct (n =? 1)%Z.
  { intros (f & Hf & Hev).
    apply (evaluate_well_formed t tw sw svw smap dflt fs [f] [1] c).
    - replace (_svc (provider <$> [f]) [1] smap dflt)
        with (dict_get smap (provider f) dflt); [done |].
      unfold _svc. simpl. rewrite sum_singleton. ring.
    - by apply singleton_sublist_l.
    - done.
    - constructor; [apply one_bounds | constructor]. }
  destruct (n =? 2)%Z.
  - intros ([f1 f2] & w & Hp & _ & Hw & Hev).
    apply (evaluate_well_formed t tw sw svw smap dflt fs [f1; f2]
             [w; 1 - w] c); [exact Hev | | done |].
    + by apply combinations2_sublist.
    + pose proof grid_bounds as Hb. rewrite Forall_forall in Hb.
      destruct (Hb w Hw) as [H1 H2].
      constructor; [exact H1 | constructor; [exact H2 | constructor]].
  - intros ([[f1 f2] f3] & [w1 w2] & Ht & _ & Hw & Hev).
    apply (evaluate_well_formed t tw sw svw smap dflt fs [f1; f2; f3]
             [w1; w2; clamp (third_weight (w1, w2))] c);
      [exact Hev | | done |].
    + by apply combinations3_sublist.
    + pose proof simplex_bounds as Hb. rewrite Forall_forall in Hb.
      destruct (Hb (w1, w2) Hw) as [H1 H2].
      constructor; [exact H1 | constructor; [exact H2 |]].
      constructor; [apply clamp_bounds | constructor].
Qed.

Lemma compute_returned_origin t tw sw svw smap dflt spo fs n cs msg c :
  compute t tw sw svw smap dflt spo fs n = Ret (cs, msg) →
  c ∈ cs →
  origin t tw sw svw smap dflt spo fs n c.
Proof.
  intros H Hc. unfold compute in H. destruct (_ <? n)%Z.
  { injection H as <- _. by apply elem_of_nil in Hc. }
  apply bind_Ret in H as (pool & Hsearch & H).
  destruct pool as [| p pool'].
  { injection H as <- _. by apply elem_of_nil in Hc. }
  injection H as <- _. apply select_elem_of in Hc.
  rewrite (sort_by_score_perm (p :: pool')) in Hc.
  by eapply search_origin.
Qed.

(** X7. Every candidate [compute] returns is made of distinct entries of the
    catalog, in catalog order, as many as the branch for [n] blends (1, 2,
    or 3 for any other [n]), with as many weights, each in [0, 1]; its
    stored profile is the blend of these funds at these weights, and its
    stored deviation, service score and score are the ones computed from
    that profile. *)
Theorem compute_well_formed
    (target target_weights : gmap string Qc) (sharpe_w service_w : Qc)
    (svc_map : gmap string Qc) (dflt_svc : Qc) (same_prov_only : bool)
    (fs : list Fund) (n : Z) (cs : list Candidate) (msg : string) :
  compute target target_weights sharpe_w service_w svc_map dflt_svc
    same_prov_only fs n = Ret (cs, msg) →
  Forall (well_formed target target_weights sharpe_w service_w svc_map
            dflt_svc fs (blend_size n)) cs.
Proof.
  intros H. apply Forall_forall. intros c Hc.
  eapply origin_well_formed. by eapply compute_returned_origin.
Qed.

Lemma compute_well_formed_witness :
  Forall (well_formed Scenario.target Scenario.equal_weights 0 0 ∅
            (Num.of_Z 70) Scenario.catalog 2)
    (Scenario.returned (Scenario.run Scenario.catalog 2)).
Proof.
  apply (compute_well_formed Scenario.target Scenario.equal_weights 0 0 ∅
           (Num.of_Z 70) false Scenario.catalog 2 _ "").
  vm_compute. reflexivity.
Defined.

(** X8. With [same_prov_only] set, all the funds of a returned candidate
    have the same provider. *)
Theorem compute_same_provider
    (target target_weights : gmap string Qc) (sharpe_w service_w : Qc)
    (svc_map : gmap string Qc) (dflt_svc : Qc)
    (fs : list Fund) (n : Z) (cs : list Candidate) (msg : string)
    (c : Candidate) (f g : Fund) :
  compute target target_weights sharpe_w service_w svc_map dflt_svc
    true fs n = Ret (cs, msg) →
  c ∈ cs → f ∈ funds c → g ∈ funds c →
  provider f = provider g.
Proof.
  intros H Hc Hf Hg.
  pose proof (compute_returned_origin _ _ _ _ _ _ _ _ _ _ _ _ H Hc) as Ho.
  unfold origin in Ho. destruct (n =? 1)%Z.
  { destruct Ho as (f0 & _ & Hev).
    apply evaluate_inv in Hev as (dev & sh & _ & _ & ->). simpl in *.
    apply list_elem_of_singleton in Hf, Hg. by subst. }
  destruct (n =? 2)%Z.
  - destruct Ho as ([f1 f2] & w & _ & Hel & _ & Hev).
    apply evaluate_inv in Hev as (dev & sh & _ & _ & ->).
    unfold eligible_pair in Hel. cbn [fst snd andb] in Hel.
    apply negb_true_iff, bool_decide_eq_false in Hel.
    apply dec_stable in Hel. simpl in Hf, Hg. set_unfold.
    destruct Hf as [-> | [-> | []]], Hg as [-> | [-> | []]]; done.
  - destruct Ho as ([[f1 f2] f3] & w & _ & Hel & _ & Hev).
    apply evaluate_inv in Hev as (dev & sh & _ & _ & ->).
    unfold eligible_triple in Hel. cbn [fst snd andb] in Hel.
    rewrite negb_involutive in Hel.
    apply andb_true_iff in Hel as [H12 H23].
    apply bool_decide_eq_true in H12, H23. simpl in Hf, Hg. set_unfold.
    destruct Hf as [-> | [-> | [-> | []]]], Hg as [-> | [-> | [-> | []]]];
      congruence.
Qed.

Lemma compute_same_provider_witness :
  ∃ c, Scenario.returned (Shared.run 2) = [c] ∧
       funds c = [Scenario.fundX; Shared.fundW] ∧
       provider Scenario.fundX = provider Shared.fundW.
Proof.
  eexists. split; [vm_compute; reflexivity |]. split; [reflexivity |].
  eapply (compute_same_provider Scenario.target Scenario.equal_weights 0 0 ∅
            (Num.of_Z 70) Shared.catalog 2 _ "" _ Scenario.fundX Shared.fundW).
  - vm_compute. reflexivity.
  - left.
  - left.
  - right. left.
Defined.

(** ** Blends of lists of different lengths, and the sign of the deviation *)

Lemma zip_take {A B} (xs : list A) (ys : list B) :
  zip xs ys = zip (take (length ys) xs) (take (length xs) ys).
Proof.
  revert ys. induction xs as [| x xs IH]; intros [| y ys]; simpl; [done.. |].
  by rewrite <- IH.
Qed.

(** X9. [_blend] and [_svc] pair weights and funds with [zip]: when the two
    lists differ in length the surplus of the longer one is ignored and
    nothing is raised; with no fund or no weight the profile is 0 at each
    of its five keys and the service score is 0. *)
Theorem blend_ignores_surplus (fs : list Fund) (ws : list Qc)
    (provs : list string) (smap : gmap string Qc) (dflt : Qc) :
  _blend fs ws = _blend (take (length ws) fs) (take (length fs) ws) ∧
  _svc provs ws smap dflt
    = _svc (take (length ws) provs) (take (length provs) ws) smap dflt ∧
  (fs = [] ∨ ws = [] →
   ∀ k, k ∈ metric_keys ∨ k = "sharpe" → _blend fs ws !! k = Some 0) ∧
  (provs = [] ∨ ws = [] → _svc provs ws smap dflt = 0).
Proof.
  split; [| split; [| split]].
  - unfold _blend. by rewrite (zip_take ws fs).
  - unfold _svc. by rewrite (zip_take ws provs).
  - intros Hempty k Hk.
    assert (zip ws fs = []) as Hz.
    { destruct Hempty as [-> | ->]; [by destruct ws | done]. }
    destruct (blend_lookup fs ws) as (H1 & H2 & H3 & H4 & H5).
    rewrite Hz in *. simpl in *.
    destruct Hk as [Hk | ->]; [| exact H5].
    unfold metric_keys in Hk.
    repeat (apply elem_of_cons in Hk as [-> | Hk]; [done |]).
    by apply elem_of_nil in Hk.
  - intros Hempty. unfold _svc.
    assert (zip ws provs = []) as ->; [| done].
    destruct Hempty as [-> | ->]; [by destruct ws | done].
Qed.

Lemma blend_ignores_surplus_witness :
  _blend [] [Q2Qc (1 # 2)] !! "equity" = Some 0.
Proof.
  destruct (blend_ignores_surplus [] [Q2Qc (1 # 2)] [] ∅ 0)
    as (_ & _ & Hzero & _).
  apply Hzero; [by left |]. left. repeat constructor.
Defined.

Lemma dev_term_inv v t tw k d :
  dev_term v t tw k = Ret d →
  ∃ w x y, tw !! k = Some w ∧ v !! k = Some x ∧ t !! k = Some y ∧
           d = w * Num.abs (x - y).
Proof.
  unfold dev_term. intros H.
  apply bind_Ret in H as (w & Hw & H).
  apply bind_Ret in H as (x & Hx & H).
  apply bind_Ret in H as (y & Hy & [= <-]).
  exists w, x, y. by repeat split; try apply getitem_Ret.
Qed.

Lemma deviation_inv v t tw d :
  _deviation v t tw = Ret d →
  ∃ d1 d2 d3 d4,
    dev_term v t tw "equity" = Ret d1 ∧ dev_term v t tw "abroad" = Ret d2 ∧
    dev_term v t tw "fx" = Ret d3 ∧ dev_term v t tw "illiquid" = Ret d4 ∧
    d = d1 + d2 + d3 + d4.
Proof.
  unfold _deviation. intros H.
  apply bind_Ret in H as (d1 & H1 & H).
  apply bind_Ret in H as (d2 & H2 & H).
  apply bind_Ret in H as (d3 & H3 & H).
  apply bind_Ret in H as (d4 & H4 & [= <-]).
  by exists d1, d2, d3, d4.
Qed.

(** X10. When every target weight is non-negative the deviation
    [_deviation] returns is non-negative, and it is 0 when the profile
    equals the target on the four keys. *)
Theorem deviation_nonneg (v t tw : gmap string Qc) (d : Qc) :
  _deviation v t tw = Ret d →
  ((∀ k w, k ∈ metric_keys → tw !! k = Some w → 0 ≤ w) → 0 ≤ d) ∧
  ((∀ k, k ∈ metric_keys → v !! k = t !! k) → d = 0).
Proof.
  intros H.
  apply deviation_inv in H as (d1 & d2 & d3 & d4 & H1 & H2 & H3 & H4 & ->).
  assert ("equity" ∈ metric_keys) as K1 by repeat constructor.
  assert ("abroad" ∈ metric_keys) as K2 by repeat constructor.
  assert ("fx" ∈ metric_keys) as K3 by repeat constructor.
  assert ("illiquid" ∈ metric_keys) as K4 by repeat constructor.
  split.
  - intros Hpos.
    assert (∀ k dk, k ∈ metric_keys → dev_term v t tw k = Ret dk → 0 ≤ dk)
      as Hterm.
    { intros k dk Hk Hdk.
      apply dev_term_inv in Hdk as (w & x & y & Hw & _ & _ & ->).
      apply Qcmult_nonneg_nonneg; [by eapply Hpos |].
      apply Qcabs.Qcabs_nonneg. }
    repeat apply Qcplus_nonneg_nonneg; eauto.
  - intros Heq.
    assert (∀ k dk, k ∈ metric_keys → dev_term v t tw k = Ret dk → dk = 0)
      as Hterm.
    { intros k dk Hk Hdk.
      apply dev_term_inv in Hdk as (w & x & y & _ & Hx & Hy & ->).
      rewrite (Heq k Hk), Hy in Hx. injection Hx as <-.
      replace (y - y) with 0 by ring. unfold Num.abs.
      rewrite Qcabs.Qcabs_pos by apply Qcle_refl. ring. }
    rewrite (Hterm _ _ K1 H1), (Hterm _ _ K2 H2), (Hterm _ _ K3 H3),
      (Hterm _ _ K4 H4). ring.
Qed.

Lemma deviation_nonneg_witness :
  ∃ d, _deviation (_blend [Scenario.fundX] [1]) Scenario.target
         Scenario.equal_weights = Ret d ∧ 0 ≤ d.
Proof.
  eexists. split; [vm_compute; reflexivity |].
  eapply (deviation_nonneg (_blend [Scenario.fundX] [1]) Scenario.target
            Scenario.equal_weights).
  - vm_compute. reflexivity.
  - intros k w Hk. unfold metric_keys in Hk.
    repeat (apply elem_of_cons in Hk as [-> | Hk];
            [intros [= <-]; by vm_compute |]).
    by apply elem_of_nil in Hk.
Defined.

(** X11. With [sharpe_w = 0] and [service_w = 0] the score of every
    candidate is its deviation, so the first candidate [compute] returns
    has the least deviation of the whole pool. *)
Theorem compute_zero_preferences
    (target target_weights : gmap string Qc)
    (svc_map : gmap string Qc) (dflt_svc : Qc) (same_prov_only : bool)
    (fs : list Fund) (n : Z) (c : Candidate) (rest : list Candidate)
    (msg : string) :
  compute target target_weights 0 0 svc_map dflt_svc same_prov_only fs n
    = Ret (c :: rest, msg) →
  score c = deviation c ∧
  ∃ pool,
    search target target_weights 0 0 svc_map dflt_svc same_prov_only fs n
      = Ret pool ∧
    c ∈ pool ∧ ∀ d, d ∈ pool → deviation c ≤ deviation d.
Proof.
  intros H.
  assert (∀ d, origin target target_weights 0 0 svc_map dflt_svc
                 same_prov_only fs n d → score d = deviation d) as Hscore.
  { intros d Hd.
    assert (∀ fs0 ws sv, evaluate target target_weights 0 0 fs0 ws sv = Ret d →
                         score d = deviation d) as Hev.
    { intros fs0 ws sv Hev.
      apply evaluate_inv in Hev as (dev & sh & _ & _ & ->). simpl.
      unfold _score. ring. }
    unfold origin in Hd. destruct (n =? 1)%Z.
    { destruct Hd as (f & _ & Hd). by eapply Hev. }
    destruct (n =? 2)%Z.
    - destruct Hd as (p & w & _ & _ & _ & Hd). by eapply Hev.
    - destruct Hd as (t & w & _ & _ & _ & Hd). by eapply Hev. }
  split.
  { apply Hscore. eapply compute_returned_origin; [exact H | left]. }
  unfold compute in H. destruct (_ <? n)%Z; [by injection H |].
  destruct (search target target_weights 0 0 svc_map dflt_svc same_prov_only
              fs n) as [pool | e] eqn:Hsearch; [| done].
  simpl in H. exists pool. split; [done |].
  destruct (decide (pool = [])) as [-> | Hne]; [by injection H |].
  destruct (select_sorted_pool same_prov_only pool Hne)
    as (c' & rest' & Hsel & Hin & Hmin).
  assert (c' = c) as ->.
  { destruct pool; [done |]. rewrite Hsel in H. by injection H. }
  split; [done |]. intros d Hd.
  rewrite <- (Hscore c), <- (Hscore d); [by apply Hmin | |];
    by eapply search_origin.
Qed.

Lemma compute_zero_preferences_witness :
  ∃ c rest,
    Scenario.run Scenario.catalog 2 = Ret (c :: rest, "") ∧
    score c = deviation c.
Proof.
  eexists _, _. split; [vm_compute; reflexivity |].
  eapply (compute_zero_preferences Scenario.target Scenario.equal_weights ∅
            (Num.of_Z 70) false Scenario.catalog 2).
  vm_compute. reflexivity.
Defined.

(** ** The labels of the results page *)

Lemma compute_length t tw sw svw smap dflt spo fs n cs msg :
  compute t tw sw svw smap dflt spo fs n = Ret (cs, msg) →
  (length cs ≤ 3)%nat.
Proof.
  intros H. unfold compute in H. destruct (_ <? n)%Z.
  { injection H as <- _. simpl. lia. }
  apply bind_Ret in H as (pool & _ & H). destruct pool.
  { injection H as <- _. simpl. lia. }
  injection H as <- _. rewrite select_chosen. apply run_passes_length.
Qed.

(** X12. The results page labels the alternative of rank [i] with
    [BADGES[i]] and [CARD_CLS[i]]: both exist for every rank of the list
    [compute] returns, so these subscripts never fail. *)
Theorem labels_cover_results
    (target target_weights : gmap string Qc) (sharpe_w service_w : Qc)
    (svc_map : gmap string Qc) (dflt_svc : Qc) (same_prov_only : bool)
    (fs : list Fund) (n : Z) (cs : list Candidate) (msg : string)
    (i : nat) (c : Candidate) :
  compute target target_weights sharpe_w service_w svc_map dflt_svc
    same_prov_only fs n = Ret (cs, msg) →
  cs !! i = Some c →
  is_Some (BADGES !! i) ∧ is_Some (CARD_CLS !! i).
Proof.
  intros H Hi. apply compute_length in H.
  apply lookup_lt_Some in Hi.
  split; apply lookup_lt_is_Some; simpl; lia.
Qed.

Lemma labels_cover_results_witness :
  is_Some (BADGES !! 2%nat) ∧ is_Some (CARD_CLS !! 2%nat).
Proof.
  eapply (labels_cover_results Scenario.target Scenario.equal_weights 0 0 ∅
            (Num.of_Z 70) false Scenario.catalog 1 _ "" 2).
  - vm_compute. reflexivity.
  - vm_compute. reflexivity.
Defined.
